(** * Switcher: a first-stage bootloader core (crawford/switcher)

    A shallow embedding of switcher.h, switcher.c and the example [main],
    followed by the properties of the selection and dispatch logic.
    Headers live in a store indexed by their address; every C function that
    takes an [image_t] pointer becomes a computation over that store which
    also records the calls made to the external CRC. *)

From stdpp Require Import gmap list.

Open Scope Z_scope.

(** ** The image header ([image_t], switcher.h) *)

(** The packed bit-field struct.  Integer fields are kept as [Z]; the widths
    of the bit-fields are written out where a store truncates. *)
Record image_t := Image {
  checksum  : Z;     (* uint32_t checksum:24 *)
  version   : Z;     (* uint8_t  version:8   *)
  length    : Z;     (* uint32_t length:24   *)
  nValid    : bool;  (* bool     nValid:1    *)
  nInvalid  : bool;  (* bool     nInvalid:1  *)
  nSuccess  : bool;  (* bool     nSuccess:1  *)
  nFailure  : bool;  (* bool     nFailure:1  *)
  nAttempts : Z      (* uint8_t  nAttempts:4 *)
}.

(** The values a header can hold, by the widths of its bit-fields. *)
Definition in_range (h : image_t) : Prop :=
  0 <= checksum h < 2 ^ 24 ∧ 0 <= version h < 2 ^ 8 ∧
  0 <= length h < 2 ^ 24 ∧ 0 <= nAttempts h < 2 ^ 4.

(** Conversion to [uint8_t], and the truncation done by a store to the
    four-bit field [nAttempts]. *)
Definition uint8 (x : Z) : Z := Z.land x 255.
Definition uint4 (x : Z) : Z := Z.land x 15.

(** Assignments to single members. *)
Definition set_nValid (v : bool) (h : image_t) : image_t :=
  Image (checksum h) (version h) (length h)
        v (nInvalid h) (nSuccess h) (nFailure h) (nAttempts h).

Definition set_nInvalid (v : bool) (h : image_t) : image_t :=
  Image (checksum h) (version h) (length h)
        (nValid h) v (nSuccess h) (nFailure h) (nAttempts h).

Definition set_nSuccess (v : bool) (h : image_t) : image_t :=
  Image (checksum h) (version h) (length h)
        (nValid h) (nInvalid h) v (nFailure h) (nAttempts h).

Definition set_nFailure (v : bool) (h : image_t) : image_t :=
  Image (checksum h) (version h) (length h)
        (nValid h) (nInvalid h) (nSuccess h) v (nAttempts h).

Definition set_nAttempts (v : Z) (h : image_t) : image_t :=
  Image (checksum h) (version h) (length h)
        (nValid h) (nInvalid h) (nSuccess h) (nFailure h) (uint4 v).

(** ** Store, trace and the monad of the C functions *)

(** A call of the external [crc_24], made on behalf of the header at
    [image], with the two arguments it was given. *)
Inductive event :=
  | EvCrc24 (image data data_len : Z).

(** How a call of [switcher_boot] ends: it comes back to its caller, or it
    runs its asm statement, [mov sp, %0; mov ip, %1], with the two operands
    recorded here.  The assembler's [sp] is the stack pointer; its [ip] is
    r12, the intra-procedure scratch register of ARM, not the program
    counter, so the statement loads two registers and branches nowhere.
    What follows it is [__builtin_unreachable ()]: the source defines
    nothing past that point, and no outcome stands for a transfer of
    control into an image. *)
Inductive control :=
  | Returns
  | Loads (sp ip : Z).

(** A computation reads and writes the headers in the store and appends to
    the trace; dereferencing an address that holds no header has no
    defined result. *)
Definition M (A : Type) : Type :=
  gmap Z image_t → option (A * gmap Z image_t * list event).

Definition ret {A} (x : A) : M A := λ s, Some (x, s, []).

Definition bind {A B} (m : M A) (k : A → M B) : M B := λ s,
  match m s with
  | Some (x, s1, t1) =>
      match k x s1 with
      | Some (y, s2, t2) => Some (y, s2, t1 ++ t2)
      | None => None
      end
  | None => None
  end.

Declare Scope switcher_scope.
Delimit Scope switcher_scope with sw.
Notation "x ← m ; k" := (bind m (λ x, k))
  (at level 20, m at level 100, k at level 200, only parsing)
  : switcher_scope.
Notation "m ;; k" := (bind m (λ _, k))
  (at level 100, k at level 200, only parsing, right associativity)
  : switcher_scope.
Open Scope switcher_scope.

(** [image->field] *)
Definition read {A} (field : image_t → A) (image : Z) : M A := λ s,
  match s !! image with
  | Some h => Some (field h, s, [])
  | None => None
  end.

(** [image->field = v], with [set] the assignment to that member. *)
Definition write {A} (set : A → image_t → image_t) (image : Z) (v : A)
  : M unit := λ s,
  match s !! image with
  | Some h => Some (tt, <[image := set v h]> s, [])
  | None => None
  end.

Definition NULL : Z := 0.

(** ** Flash contents

    The header addresses of the example boot loader, and some contents of
    the two header slots that the properties below are run on. *)

Definition HEADER_ADDR_A : Z := 0x0007FFF8.
Definition HEADER_ADDR_B : Z := 0x000FFFF8.

(** A header as it is flashed: every status bit and every attempt bit 1. *)
Definition flashed (csum ver len : Z) : image_t :=
  Image csum ver len true true true true 15.

Definition fresh (h : image_t) : Prop :=
  nValid h = true ∧ nInvalid h = true ∧ nSuccess h = true ∧
  nFailure h = true ∧ nAttempts h = 15.

(** Two CRC implementations: one whose remainder is always zero, one whose
    remainder never is. *)
Definition crc_accepts : Z → Z → Z := λ _ _, 0.
Definition crc_rejects : Z → Z → Z := λ _ _, 1.

Definition header_a : image_t := flashed 0xABCDEF 1 4096.
Definition header_b : image_t := flashed 0x123456 2 8192.

(** Both images just flashed. *)
Definition flash_fresh : gmap Z image_t :=
  {[ HEADER_ADDR_A := header_a; HEADER_ADDR_B := header_b ]}.

(** Image A with [nValid] cleared and [nInvalid] still set. *)
Definition flash_validated : gmap Z image_t :=
  {[ HEADER_ADDR_A := set_nValid false header_a; HEADER_ADDR_B := header_b ]}.

(** Image A with [nInvalid] cleared and [nValid] still set. *)
Definition flash_rejected : gmap Z image_t :=
  {[ HEADER_ADDR_A := set_nInvalid false header_a;
     HEADER_ADDR_B := header_b ]}.

(** Image A has recorded a successful boot. *)
Definition flash_succeeded : gmap Z image_t :=
  {[ HEADER_ADDR_A := set_nSuccess false header_a;
     HEADER_ADDR_B := header_b ]}.

(** Both images have recorded a successful boot; A carries the newer
    version in the first store and the older one in the second. *)
Definition flash_both (version_a version_b : Z) : gmap Z image_t :=
  {[ HEADER_ADDR_A := Image 0xABCDEF version_a 4096 true true false true 15;
     HEADER_ADDR_B := Image 0x123456 version_b 8192 true true false true 15 ]}.

Section Switcher.

(** [crc_24] is declared in crc.h and implemented outside these sources: the
    remainder of [data_len] bytes starting at [data].  The bytes it is run
    over (an image and the checksum member that follows it) are never
    written by switcher.c, so the remainder is a function of the two
    arguments. *)
Variable crc_24 : Z → Z → Z.

Definition call_crc_24 (image data data_len : Z) : M Z := λ s,
  Some (crc_24 data data_len, s, [EvCrc24 image data data_len]).

(** ** switcher.c *)

Definition switcher_set_success (image : Z) : M unit :=
  write set_nSuccess image false.

Definition switcher_set_failure (image : Z) : M unit :=
  write set_nFailure image false.

(** The header address taken as a byte pointer, minus [image->length].
    Addresses are integers here, so the difference is the mathematical one.
    It is the address the processor computes whenever [length <= image],
    which is where a header that follows its image lies (see
    [image_start_exact]); for a larger [length] the C subtraction leaves
    the address space and the source defines no result. *)
Definition _image_start (image : Z) : M Z :=
  len ← read length image;
  ret (image - len).

(** [!crc_24(_image_start(image), image->length + 3)] *)
Definition _checksum_valid (image : Z) : M bool :=
  data ← _image_start image;
  len ← read length image;
  r ← call_crc_24 image data (len + 3);
  ret (r =? 0).

(** The early returns of the C function are the branches that end in
    [ret]; [return_attempts] is its last statement, reached when [nValid]
    is clear and when the block under [if (image->nValid)] falls through. *)
Definition _can_boot (image : Z) : M bool :=
  let return_attempts : M bool :=
    attempts ← read nAttempts image;
    ret (negb (attempts =? 0)) in
  failure ← read nFailure image;
  if negb failure then ret false else
  success ← read nSuccess image;
  if negb success then ret true else
  valid ← read nValid image;
  if valid then
    invalid ← read nInvalid image;
    if invalid then ret false else
    ok ← _checksum_valid image;
    if negb ok then
      write set_nInvalid image false;;
      ret false
    else
      write set_nValid image false;;
      return_attempts
  else return_attempts.

Definition switcher_choose (a b : Z) : M Z :=
  can_boot_a ← _can_boot a;
  can_boot_b ← _can_boot b;
  if negb can_boot_a && negb can_boot_b then ret NULL else
  if can_boot_a && negb can_boot_b then ret a else
  if negb can_boot_a && can_boot_b then ret b else
  ret (if a >=? b then a else b).

(** The write to [nAttempts] comes first; the asm statement, with operands 0
    and [_image_start(image)], is the last thing the function does. *)
Definition switcher_boot (image : Z) : M control :=
  if image =? NULL then ret Returns else
  success ← read nSuccess image;
  (if success then
     attempts ← read nAttempts image;
     write set_nAttempts image (uint8 (Z.shiftl attempts 1))
   else ret tt);;
  ip ← _image_start image;
  ret (Loads 0 ip).

(** ** The example boot loader ([main]) *)

(** [switcher_boot(switcher_choose(HEADER_A, HEADER_B))]; when the call comes
    back, [main] spins in [while (true)], which [Returns] stands for here.
    When the call ends in its asm statement, that is how [main] ends too. *)
Definition main : M control :=
  image ← switcher_choose HEADER_ADDR_A HEADER_ADDR_B;
  switcher_boot image.

(** ** Sequences of calls *)

(** The four entry points of switcher.h, as one call each. *)
Inductive op :=
  | Choose (a b : Z)
  | Boot (image : Z)
  | SetSuccess (image : Z)
  | SetFailure (image : Z).

Definition exec (o : op) : M unit :=
  match o with
  | Choose a b => switcher_choose a b;; ret tt
  | Boot image => switcher_boot image;; ret tt
  | SetSuccess image => switcher_set_success image
  | SetFailure image => switcher_set_failure image
  end.

Fixpoint run (os : list op) : M unit :=
  match os with
  | [] => ret tt
  | o :: os' => exec o;; run os'
  end.

(** ** What the calls do, as functions of the header

    [_can_boot] reads one header, may run the CRC once and may clear one
    latch; the next definitions give its verdict, the header it leaves and
    its trace directly.  They are related to the code by [can_boot_run]. *)

Definition checksum_ok (image : Z) (h : image_t) : bool :=
  crc_24 (image - length h) (length h + 3) =? 0.

(** The headers on which [_can_boot] gets as far as the CRC. *)
Definition verifies (h : image_t) : bool :=
  nFailure h && nSuccess h && nValid h && negb (nInvalid h).

Definition can_boot_verdict (image : Z) (h : image_t) : bool :=
  if negb (nFailure h) then false
  else if negb (nSuccess h) then true
  else if nValid h && nInvalid h then false
  else if nValid h && negb (checksum_ok image h) then false
  else negb (nAttempts h =? 0).

Definition can_boot_header (image : Z) (h : image_t) : image_t :=
  if verifies h then
    if checksum_ok image h then set_nValid false h else set_nInvalid false h
  else h.

Definition can_boot_trace (image : Z) (h : image_t) : list event :=
  if verifies h then [EvCrc24 image (image - length h) (length h + 3)]
  else [].

(** The four returns of [switcher_choose], from the two verdicts. *)
Definition pick (a b : Z) (can_boot_a can_boot_b : bool) : Z :=
  if negb can_boot_a && negb can_boot_b then NULL
  else if can_boot_a && negb can_boot_b then a
  else if negb can_boot_a && can_boot_b then b
  else if a >=? b then a else b.

(** The header [switcher_boot] leaves behind. *)
Definition boot_header (h : image_t) : image_t :=
  if nSuccess h then set_nAttempts (uint8 (Z.shiftl (nAttempts h) 1)) h
  else h.

(** What the call [o] does to the header stored at [p]. *)
Definition op_header (o : op) (p : Z) (h : image_t) : image_t :=
  match o with
  | Choose a b =>
      let h1 := if decide (p = a) then can_boot_header a h else h in
      if decide (p = b) then can_boot_header b h1 else h1
  | Boot image =>
      if decide (p = image ∧ image ≠ NULL) then boot_header h else h
  | SetSuccess image =>
      if decide (p = image) then set_nSuccess false h else h
  | SetFailure image =>
      if decide (p = image) then set_nFailure false h else h
  end.

(** ** Predicates on headers and stores *)

Definition same_but_validity (h h' : image_t) : Prop :=
  checksum h' = checksum h ∧ version h' = version h ∧
  length h' = length h ∧ nSuccess h' = nSuccess h ∧
  nFailure h' = nFailure h ∧ nAttempts h' = nAttempts h.

Definition same_but_attempts (h h' : image_t) : Prop :=
  checksum h' = checksum h ∧ version h' = version h ∧
  length h' = length h ∧ nValid h' = nValid h ∧
  nInvalid h' = nInvalid h ∧ nSuccess h' = nSuccess h ∧
  nFailure h' = nFailure h.

Definition same_but_version (h h' : image_t) : Prop :=
  checksum h' = checksum h ∧ length h' = length h ∧
  nValid h' = nValid h ∧ nInvalid h' = nInvalid h ∧
  nSuccess h' = nSuccess h ∧ nFailure h' = nFailure h ∧
  nAttempts h' = nAttempts h.

(** A header that has not recorded a success and has no attempt left. *)
Definition exhausted (h : image_t) : Prop :=
  nSuccess h = true ∧ nAttempts h = 0.

(** A status bit that is set afterwards was set before. *)
Definition latch_kept (before after : bool) : Prop :=
  after = true → before = true.

(** Every bit set afterwards was set before. *)
Definition bits_subset (after before : Z) : Prop :=
  ∀ i, Z.testbit after i = true → Z.testbit before i = true.

Definition restricts (before after : image_t) : Prop :=
  latch_kept (nValid before) (nValid after) ∧
  latch_kept (nInvalid before) (nInvalid after) ∧
  latch_kept (nSuccess before) (nSuccess after) ∧
  latch_kept (nFailure before) (nFailure after) ∧
  bits_subset (nAttempts after) (nAttempts before) ∧
  nAttempts after <= nAttempts before.

(** The values [nAttempts] takes on the way from 0b1111 to 0. *)
Definition budget (h : image_t) : Prop :=
  nAttempts h = 15 ∨ nAttempts h = 14 ∨ nAttempts h = 12 ∨
  nAttempts h = 8 ∨ nAttempts h = 0.

(** The stores the entry points can produce from freshly flashed headers. *)
Inductive reachable : gmap Z image_t → Prop :=
  | reachable_flashed s :
      (∀ p h, s !! p = Some h → fresh h) → reachable s
  | reachable_exec s o s' t :
      reachable s → exec o s = Some (tt, s', t) → reachable s'.

(** Part (a) of the selection rule as the specification words it: a header
    with [nFailure] and [nSuccess] set, [nValid] clear and [nInvalid] set
    is refused without running the CRC. *)
Definition refused_when_validated (image : Z) (s : gmap Z image_t) : Prop :=
  ∀ h, s !! image = Some h →
       nFailure h = true → nSuccess h = true →
       nValid h = false → nInvalid h = true →
       ∃ s', _can_boot image s = Some (false, s', []).

(** ** Power cycles *)

(** [n] resets in a row, each running [main] on the flash the previous one
    left behind, with what each reset did collected in order.  Nothing else
    writes the headers in between: no image records a success or a
    failure. *)
Fixpoint power_cycles (n : nat) : M (list control) :=
  match n with
  | O => ret []
  | S n' =>
      c ← main;
      cs ← power_cycles n';
      ret (c :: cs)
  end.

(** How many of the resets got as far as the asm statement of
    [switcher_boot], that is, dispatched an image. *)
Fixpoint dispatches (cs : list control) : nat :=
  match cs with
  | [] => O
  | Loads _ _ :: cs' => S (dispatches cs')
  | Returns :: cs' => dispatches cs'
  end.

(** The shifts a four-bit attempt field survives before it is zero: four
    minus the position of its lowest set bit. *)
Definition attempts_left (a : Z) : nat :=
  if Z.testbit a 0 then 4
  else if Z.testbit a 1 then 3
  else if Z.testbit a 2 then 2
  else if Z.testbit a 3 then 1
  else 0.

(** ** Equations of the monad *)

Lemma bind_Some {A B} (m : M A) (k : A → M B) s x s1 t1 :
  m s = Some (x, s1, t1) →
  bind m k s =
    match k x s1 with
    | Some (y, s2, t2) => Some (y, s2, t1 ++ t2)
    | None => None
    end.
Proof. intros Hm. unfold bind. by rewrite Hm. Qed.

Lemma bind_None {A B} (m : M A) (k : A → M B) s :
  m s = None → bind m k s = None.
Proof. intros Hm. unfold bind. by rewrite Hm. Qed.

Lemma bind_inv {A B} (m : M A) (k : A → M B) s y s2 t :
  bind m k s = Some (y, s2, t) →
  ∃ x s1 t1 t2,
    m s = Some (x, s1, t1) ∧ k x s1 = Some (y, s2, t2) ∧ t = t1 ++ t2.
Proof.
  unfold bind. destruct (m s) as [[[x s1] t1]|]; [|done].
  destruct (k x s1) as [[[y' s2'] t2]|] eqn:Hk; [|done].
  intros [= -> -> <-]. by exists x, s1, t1, t2.
Qed.

Lemma read_Some {A} (field : image_t → A) image s h :
  s !! image = Some h → read field image s = Some (field h, s, []).
Proof. intros Hs. unfold read. by rewrite Hs. Qed.

Lemma write_Some {A} (set : A → image_t → image_t) image v s h :
  s !! image = Some h →
  write set image v s = Some (tt, <[image := set v h]> s, []).
Proof. intros Hs. unfold write. by rewrite Hs. Qed.

(** Running the first computation of a [bind] whose result is known: by
    an equation for it, or because it reads a member of a header that the
    store holds. *)
Ltac run_with H := rewrite (bind_Some _ _ _ _ _ _ H).
Ltac run_read field Hs := run_with (read_Some field _ _ _ Hs).

(** Facts about how one header relates to the header a call leaves. *)
Create HintDb switcher.

(** ** The C functions, run on a store *)

Lemma image_start_run image s h :
  s !! image = Some h →
  _image_start image s = Some (image - length h, s, []).
Proof.
  intros Hs. unfold _image_start.
  by run_read length Hs.
Qed.

(** For a header that lies behind its image in the 32-bit address space of
    the processor, the start computed over the integers is the one the
    32-bit pointer subtraction gives, and it lies in front of the header. *)
Lemma image_start_exact image s h :
  s !! image = Some h → 0 <= length h <= image → image < 2 ^ 32 →
  ∃ start,
    _image_start image s = Some (start, s, []) ∧
    0 <= start <= image ∧ start = (image - length h) mod 2 ^ 32.
Proof.
  intros Hs Hlen Himage. exists (image - length h).
  split; [by apply image_start_run|]. split; [lia|].
  rewrite Z.mod_small; lia.
Qed.

Lemma checksum_valid_run image s h :
  s !! image = Some h →
  _checksum_valid image s =
    Some (checksum_ok image h, s,
          [EvCrc24 image (image - length h) (length h + 3)]).
Proof.
  intros Hs. unfold _checksum_valid.
  run_with (image_start_run _ _ _ Hs).
  by run_read length Hs.
Qed.

Lemma can_boot_run image s h :
  s !! image = Some h →
  _can_boot image s =
    Some (can_boot_verdict image h, <[image := can_boot_header image h]> s,
          can_boot_trace image h).
Proof.
  intros Hs. unfold _can_boot, can_boot_verdict, can_boot_header,
    can_boot_trace, verifies.
  run_read nFailure Hs.
  destruct (nFailure h) eqn:HF; simpl.
  2: { by rewrite insert_id. }
  run_read nSuccess Hs.
  destruct (nSuccess h) eqn:HS; simpl.
  2: { by rewrite insert_id. }
  run_read nValid Hs.
  destruct (nValid h) eqn:HV; simpl.
  2: { run_read nAttempts Hs.
       by rewrite insert_id. }
  run_read nInvalid Hs.
  destruct (nInvalid h) eqn:HI; simpl.
  { by rewrite insert_id. }
  run_with (checksum_valid_run _ _ _ Hs).
  destruct (checksum_ok image h) eqn:HC; simpl.
  - run_with (write_Some set_nValid _ false _ _ Hs).
    erewrite bind_Some; [|apply read_Some, lookup_insert_eq]. done.
  - by run_with (write_Some set_nInvalid _ false _ _ Hs).
Qed.

Lemma can_boot_undefined image s :
  s !! image = None → _can_boot image s = None.
Proof.
  intros Hs. unfold _can_boot. apply bind_None. unfold read. by rewrite Hs.
Qed.

Lemma choose_run a b s ha hb :
  s !! a = Some ha →
  <[a := can_boot_header a ha]> s !! b = Some hb →
  switcher_choose a b s =
    Some (pick a b (can_boot_verdict a ha) (can_boot_verdict b hb),
          <[b := can_boot_header b hb]> (<[a := can_boot_header a ha]> s),
          can_boot_trace a ha ++ can_boot_trace b hb).
Proof.
  intros Ha Hb. unfold switcher_choose, pick.
  run_with (can_boot_run _ _ _ Ha).
  run_with (can_boot_run _ _ _ Hb).
  destruct (can_boot_verdict a ha), (can_boot_verdict b hb); simpl;
    by rewrite app_nil_r.
Qed.

Lemma choose_inv a b s r s' t :
  switcher_choose a b s = Some (r, s', t) →
  ∃ ha hb,
    s !! a = Some ha ∧ <[a := can_boot_header a ha]> s !! b = Some hb ∧
    r = pick a b (can_boot_verdict a ha) (can_boot_verdict b hb) ∧
    s' = <[b := can_boot_header b hb]> (<[a := can_boot_header a ha]> s) ∧
    t = can_boot_trace a ha ++ can_boot_trace b hb.
Proof.
  intros Hrun.
  destruct (s !! a) as [ha|] eqn:Ha.
  2: { unfold switcher_choose in Hrun.
       by rewrite (bind_None _ _ _ (can_boot_undefined _ _ Ha)) in Hrun. }
  destruct (<[a := can_boot_header a ha]> s !! b) as [hb|] eqn:Hb.
  2: { unfold switcher_choose in Hrun.
       rewrite (bind_Some _ _ _ _ _ _ (can_boot_run _ _ _ Ha)) in Hrun.
       by rewrite (bind_None _ _ _ (can_boot_undefined _ _ Hb)) in Hrun. }
  rewrite (choose_run _ _ _ _ _ Ha Hb) in Hrun.
  injection Hrun as <- <- <-. by exists ha, hb.
Qed.

(** A store holding both candidates is all [switcher_choose] needs. *)
Lemma choose_defined a b s :
  is_Some (s !! a) → is_Some (s !! b) →
  is_Some (switcher_choose a b s).
Proof.
  intros [ha Ha] [hb Hb].
  destruct (decide (a = b)) as [->|Hne].
  - erewrite choose_run; [done | done | apply lookup_insert_eq].
  - erewrite choose_run; [done | done |].
    rewrite lookup_insert_ne; done.
Qed.

Lemma boot_null s : switcher_boot NULL s = Some (Returns, s, []).
Proof. done. Qed.

Lemma boot_run image s h :
  image ≠ NULL →
  s !! image = Some h →
  switcher_boot image s =
    Some (Loads 0 (image - length h), <[image := boot_header h]> s, []).
Proof.
  intros Hn Hs. unfold switcher_boot, boot_header.
  destruct (Z.eqb_spec image NULL) as [|_]; [done|].
  run_read nSuccess Hs.
  destruct (nSuccess h) eqn:HS.
  - erewrite bind_Some.
    2: { run_read nAttempts Hs.
         by rewrite (write_Some set_nAttempts _ _ _ _ Hs). }
    erewrite bind_Some; [|apply image_start_run, lookup_insert_eq]. done.
  - erewrite bind_Some; [|done].
    erewrite bind_Some; [|by apply image_start_run].
    by rewrite insert_id.
Qed.

Lemma boot_inv image s c s' t :
  image ≠ NULL →
  switcher_boot image s = Some (c, s', t) →
  ∃ h, s !! image = Some h ∧ c = Loads 0 (image - length h) ∧
       s' = <[image := boot_header h]> s ∧ t = [].
Proof.
  intros Hn Hrun. destruct (s !! image) as [h|] eqn:Hs.
  - rewrite (boot_run _ _ _ Hn Hs) in Hrun. injection Hrun as <- <- <-.
    by exists h.
  - unfold switcher_boot in Hrun.
    destruct (Z.eqb_spec image NULL) as [|_]; [done|].
    rewrite bind_None in Hrun; [done|]. unfold read. by rewrite Hs.
Qed.

(** *** One call, seen from one address *)

Lemma fmap_same (f : image_t → image_t) (o : option image_t) :
  (∀ h, f h = h) → f <$> o = o.
Proof. intros Hf. destruct o; simpl; by rewrite ?Hf. Qed.

Lemma choose_lookup a b s r s' t :
  switcher_choose a b s = Some (r, s', t) →
  ∀ p, s' !! p = op_header (Choose a b) p <$> s !! p.
Proof.
  intros (ha & hb & Ha & Hb & _ & -> & _)%choose_inv p. unfold op_header.
  destruct (decide (p = b)) as [->|Hpb].
  - rewrite lookup_insert_eq.
    destruct (decide (b = a)) as [->|Hba].
    + rewrite lookup_insert_eq in Hb. injection Hb as <-. by rewrite Ha.
    + rewrite lookup_insert_ne in Hb by done. by rewrite Hb.
  - rewrite lookup_insert_ne by done.
    destruct (decide (p = a)) as [->|Hpa].
    + by rewrite lookup_insert_eq, Ha.
    + rewrite lookup_insert_ne by done. by rewrite fmap_same.
Qed.

Lemma boot_lookup image s c s' t :
  switcher_boot image s = Some (c, s', t) →
  ∀ p, s' !! p = op_header (Boot image) p <$> s !! p.
Proof.
  intros Hrun p. unfold op_header.
  destruct (decide (image = NULL)) as [->|Hn].
  - rewrite boot_null in Hrun. injection Hrun as _ <- _.
    rewrite fmap_same; [done|]. intros h. rewrite decide_False; [done|]. intros [? ?]; congruence.
  - apply boot_inv in Hrun as (h & Hs & _ & -> & _); [|done].
    destruct (decide (p = image)) as [->|Hp].
    + rewrite lookup_insert_eq, Hs. simpl. by rewrite decide_True.
    + rewrite lookup_insert_ne by done.
      rewrite fmap_same; [done|]. intros h'. rewrite decide_False; [done|]. intros [? ?]; congruence.
Qed.

Lemma write_lookup {A} (set : A → image_t → image_t) image v s s' t :
  write set image v s = Some (tt, s', t) →
  ∀ p, s' !! p = (λ h, if decide (p = image) then set v h else h) <$> s !! p.
Proof.
  unfold write. destruct (s !! image) as [h|] eqn:Hs; [|done].
  intros [= <- _] p. destruct (decide (p = image)) as [->|Hp].
  - by rewrite lookup_insert_eq, Hs.
  - rewrite lookup_insert_ne by done. by rewrite fmap_same.
Qed.

Lemma exec_lookup o s s' t :
  exec o s = Some (tt, s', t) →
  ∀ p, s' !! p = op_header o p <$> s !! p.
Proof.
  destruct o as [a b|image|image|image]; simpl.
  - intros (r & s1 & t1 & t2 & Hrun & [= <- _] & _)%bind_inv.
    by eapply choose_lookup.
  - intros (c & s1 & t1 & t2 & Hrun & [= <- _] & _)%bind_inv.
    by eapply boot_lookup.
  - apply write_lookup.
  - apply write_lookup.
Qed.

(** ** Facts about single headers *)

Lemma can_boot_header_validity image h :
  same_but_validity h (can_boot_header image h).
Proof.
  unfold can_boot_header.
  destruct (verifies h), (checksum_ok image h); by repeat split.
Qed.

Lemma boot_header_attempts h : same_but_attempts h (boot_header h).
Proof. unfold boot_header. destruct (nSuccess h); by repeat split. Qed.

Lemma same_but_validity_trans h1 h2 h3 :
  same_but_validity h1 h2 → same_but_validity h2 h3 →
  same_but_validity h1 h3.
Proof. unfold same_but_validity. intuition congruence. Qed.

Lemma same_but_validity_refl h : same_but_validity h h.
Proof. by repeat split. Qed.

#[local] Hint Resolve same_but_validity_refl same_but_validity_trans
  can_boot_header_validity boot_header_attempts : switcher.

Lemma can_boot_header_idle image h :
  verifies h = false → can_boot_header image h = h.
Proof. unfold can_boot_header. by intros ->. Qed.

Lemma can_boot_trace_idle image h :
  verifies h = false → can_boot_trace image h = [].
Proof. unfold can_boot_trace. by intros ->. Qed.

Lemma can_boot_trace_image image h e :
  e ∈ can_boot_trace image h →
  e = EvCrc24 image (image - length h) (length h + 3).
Proof.
  unfold can_boot_trace. destruct (verifies h); [|by intros ?%elem_of_nil].
  by intros ->%list_elem_of_singleton.
Qed.

Lemma pick_cases a b ca cb :
  pick a b ca cb = NULL ∧ ca = false ∧ cb = false ∨
  pick a b ca cb = a ∧ ca = true ∨
  pick a b ca cb = b ∧ cb = true.
Proof.
  unfold pick. destruct ca, cb; simpl; [|tauto..].
  destruct (a >=? b); tauto.
Qed.

Lemma pick_first a b cb :
  pick a b true cb = a ∨ pick a b true cb = b ∧ a < b.
Proof.
  unfold pick. destruct cb; simpl; [|by left].
  destruct (Z.geb_spec a b); [by left | right; split; [done | lia]].
Qed.

Lemma pick_second a b ca :
  pick a b ca true = b ∨ pick a b ca true = a ∧ b <= a.
Proof.
  unfold pick. destruct ca; simpl; [|by left].
  destruct (Z.geb_spec a b); [right; split; [done | lia] | by left].
Qed.

Lemma fresh_refused image s h :
  s !! image = Some h → fresh h →
  _can_boot image s = Some (false, s, []).
Proof.
  intros Hs (HV & HI & HS & HF & _).
  rewrite (can_boot_run _ _ _ Hs).
  unfold can_boot_verdict, can_boot_header, can_boot_trace, verifies.
  rewrite HV, HI, HS, HF. simpl. by rewrite insert_id.
Qed.

(** A header with [nValid] set and [nInvalid] clear whose CRC remainder is
    not zero: the CRC is run, and the store is left as it was. *)
Lemma rejected_checked_each_time image s h :
  s !! image = Some h → verifies h = true → checksum_ok image h = false →
  _can_boot image s =
    Some (false, s, [EvCrc24 image (image - length h) (length h + 3)]).
Proof.
  intros Hs Hv Hc. rewrite (can_boot_run _ _ _ Hs).
  unfold can_boot_verdict, can_boot_header, can_boot_trace.
  rewrite Hv, Hc. unfold verifies in Hv.
  destruct h as [c v l [] [] [] [] n]; try done. simpl.
  by rewrite insert_id.
Qed.

Lemma uint4_range x : 0 <= uint4 x < 2 ^ 4.
Proof.
  unfold uint4. change 15 with (Z.ones 4).
  rewrite Z.land_ones by lia. by apply Z.mod_pos_bound.
Qed.

(** The calls keep every member within the width of its bit-field. *)
Lemma op_header_in_range o p h : in_range h → in_range (op_header o p h).
Proof.
  assert (∀ q k, in_range k → in_range (can_boot_header q k)) as Hcan.
  { intros q k Hk. unfold can_boot_header.
    destruct (verifies k), (checksum_ok q k); exact Hk. }
  intros Hr. destruct o as [a b|image|image|image]; unfold op_header.
  - repeat case_decide; auto.
  - case_decide; [|done]. unfold boot_header.
    destruct (nSuccess h); [|done].
    destruct Hr as (Hc & Hv & Hl & _). unfold in_range. simpl.
    exact (conj Hc (conj Hv (conj Hl (uint4_range _)))).
  - case_decide; [|done]. exact Hr.
  - case_decide; [|done]. exact Hr.
Qed.

(** ** Properties of selection and dispatch *)

(** C8: when [_can_boot] refuses both candidates, [switcher_choose] returns
    [NULL] as an ordinary value (it has a result whenever both candidates
    are headers of the store), and [switcher_boot NULL] comes back to its
    caller with no header written, no CRC run and its asm statement not
    reached. *)
Theorem null_when_nothing_boots a b s s1 s2 t1 t2 :
  _can_boot a s = Some (false, s1, t1) →
  _can_boot b s1 = Some (false, s2, t2) →
  switcher_choose a b s = Some (NULL, s2, t1 ++ t2) ∧
  switcher_boot NULL s2 = Some (Returns, s2, []) ∧
  (∀ s0, is_Some (s0 !! a) → is_Some (s0 !! b) →
         is_Some (switcher_choose a b s0)) ∧
  (∀ s0, switcher_boot NULL s0 = Some (Returns, s0, [])).
Proof.
  intros Ha Hb. split; [|split; [|split]].
  - unfold switcher_choose.
    run_with Ha. run_with Hb.
    simpl. by rewrite app_nil_r.
  - apply boot_null.
  - intros s0. apply choose_defined.
  - apply boot_null.
Qed.

(** C6: a header with [nSuccess] clear and [nFailure] set is found bootable
    whatever its checksum and [nAttempts] are; [switcher_choose] with it as
    a candidate returns one of its two arguments (the header itself, unless
    the other candidate lies at a higher address), runs no CRC for it and
    leaves it as it was; [switcher_boot] dispatches it without writing. *)
Theorem succeeded_image_trusted image s h :
  s !! image = Some h → nSuccess h = false → nFailure h = true →
  _can_boot image s = Some (true, s, []) ∧
  (∀ a b r s' t,
     a = image ∨ b = image →
     switcher_choose a b s = Some (r, s', t) →
     (r = a ∨ r = b) ∧ (r = image ∨ image < r) ∧
     s' !! image = Some h ∧
     ∀ data data_len, EvCrc24 image data data_len ∉ t) ∧
  (image ≠ NULL →
   switcher_boot image s = Some (Loads 0 (image - length h), s, [])).
Proof.
  intros Hs HS HF.
  assert (verifies h = false) as Hidle.
  { unfold verifies. by rewrite HS, HF. }
  assert (∀ q, can_boot_verdict q h = true) as Hyes.
  { intros q. unfold can_boot_verdict. by rewrite HS, HF. }
  split; [|split].
  - rewrite (can_boot_run _ _ _ Hs), Hyes, can_boot_header_idle,
      can_boot_trace_idle by done.
    by rewrite insert_id.
  - intros a b r s' t Hab Hrun.
    pose proof (choose_lookup _ _ _ _ _ _ Hrun image) as Hlook.
    apply choose_inv in Hrun as (ha & hb & Ha & Hb & -> & _ & ->).
    assert (b = image → hb = h) as Hhb.
    { intros ->. destruct (decide (image = a)) as [->|Hne].
      - rewrite lookup_insert_eq in Hb. injection Hb as <-.
        rewrite Hs in Ha. injection Ha as <-.
        by apply can_boot_header_idle.
      - rewrite lookup_insert_ne in Hb by done. congruence. }
    assert (a = image → ha = h) as Hha by (intros ->; congruence).
    split; [|split; [|split]].
    + destruct Hab as [Hi|Hi].
      * rewrite (Hha Hi), Hyes. destruct (pick_first a b (can_boot_verdict b hb))
          as [->|[-> _]]; tauto.
      * rewrite (Hhb Hi), Hyes. destruct (pick_second a b (can_boot_verdict a ha))
          as [->|[-> _]]; tauto.
    + destruct Hab as [Hi|Hi].
      * rewrite (Hha Hi), Hyes. subst a.
        destruct (pick_first image b (can_boot_verdict b hb))
          as [->|[-> ?]]; [by left | by right].
      * rewrite (Hhb Hi), Hyes. subst b.
        destruct (pick_second a image (can_boot_verdict a ha))
          as [->|[-> ?]]; [by left | lia].
    + rewrite Hlook, Hs. simpl. f_equal.
      repeat case_decide; by rewrite ?(can_boot_header_idle _ h Hidle).
    + intros data data_len [Hin|Hin]%elem_of_app.
      * pose proof (can_boot_trace_image _ _ _ Hin) as [= Hi _ _].
        rewrite (Hha (eq_sym Hi)), can_boot_trace_idle in Hin by done.
        by apply elem_of_nil in Hin.
      * pose proof (can_boot_trace_image _ _ _ Hin) as [= Hi _ _].
        rewrite (Hhb (eq_sym Hi)), can_boot_trace_idle in Hin by done.
        by apply elem_of_nil in Hin.
  - intros Hn. rewrite (boot_run _ _ _ Hn Hs). unfold boot_header.
    by rewrite HS, insert_id.
Qed.

(** C10: whatever header [p] of the store one looks at, [switcher_choose]
    leaves its checksum, version, length, [nSuccess], [nFailure] and
    [nAttempts] as they were (and the whole header when it is neither
    candidate), and [switcher_boot] of a non-null image leaves everything
    but [nAttempts] as it was (and the whole header when it is not the one
    booted). *)
Theorem choose_and_boot_frame a b image s p h :
  s !! p = Some h →
  (∀ r s' t,
     switcher_choose a b s = Some (r, s', t) →
     ∃ h', s' !! p = Some h' ∧ same_but_validity h h' ∧
           (p ≠ a → p ≠ b → h' = h)) ∧
  (∀ c s' t,
     image ≠ NULL →
     switcher_boot image s = Some (c, s', t) →
     ∃ h', s' !! p = Some h' ∧ same_but_attempts h h' ∧
           (p ≠ image → h' = h)).
Proof.
  intros Hs. split.
  - intros r s' t Hrun.
    exists (op_header (Choose a b) p h). split; [|split].
    + by rewrite (choose_lookup _ _ _ _ _ _ Hrun p), Hs.
    + unfold op_header. repeat case_decide; eauto with switcher.
    + intros Ha Hb. unfold op_header. by rewrite !decide_False.
  - intros c s' t Hn Hrun.
    exists (op_header (Boot image) p h). split; [|split].
    + by rewrite (boot_lookup _ _ _ _ _ Hrun p), Hs.
    + unfold op_header. case_decide; [apply boot_header_attempts|].
      by repeat split.
    + intros Hp. unfold op_header. rewrite decide_False; [done|].
      by intros [? _].
Qed.

(** C2, as the code has it: for a header with [nFailure] and [nSuccess]
    both set, (a) when [nValid] is already clear no CRC is run, nothing is
    written and the verdict is [nAttempts ≠ 0], whatever [nInvalid] holds;
    (b) when [nValid] is set the CRC is run at most once, over the image and
    its checksum, and when it is run a nonzero remainder clears [nInvalid]
    and refuses the image while a zero remainder clears [nValid]; (c) after
    that the verdict is [nAttempts ≠ 0]. *)
Theorem can_boot_pending image s h :
  s !! image = Some h → nFailure h = true → nSuccess h = true →
  ∃ r s' t,
    _can_boot image s = Some (r, s', t) ∧
    (nValid h = false →
       r = negb (nAttempts h =? 0) ∧ s' = s ∧ t = []) ∧
    (nValid h = true →
       (t = [] ∨ t = [EvCrc24 image (image - length h) (length h + 3)]) ∧
       (t ≠ [] → crc_24 (image - length h) (length h + 3) ≠ 0 →
          r = false ∧ s' = <[image := set_nInvalid false h]> s) ∧
       (t ≠ [] → crc_24 (image - length h) (length h + 3) = 0 →
          r = negb (nAttempts h =? 0) ∧
          s' = <[image := set_nValid false h]> s)).
Proof.
  intros Hs HF HS.
  exists (can_boot_verdict image h),
    (<[image := can_boot_header image h]> s), (can_boot_trace image h).
  split; [by apply can_boot_run|].
  unfold can_boot_verdict, can_boot_header, can_boot_trace, verifies,
    checksum_ok.
  rewrite HF, HS. simpl. split.
  - intros ->. simpl. by rewrite insert_id.
  - intros ->. simpl. destruct (nInvalid h); simpl.
    + split; [by left|]. by split.
    + split; [by right|].
      split; intros _ Hcrc.
      * apply Z.eqb_neq in Hcrc. by rewrite Hcrc.
      * apply Z.eqb_eq in Hcrc. by rewrite Hcrc.
Qed.

(** *** Selection depends on addresses, not versions *)

Lemma same_but_version_can_boot image h h' :
  same_but_version h h' →
  can_boot_verdict image h' = can_boot_verdict image h ∧
  can_boot_trace image h' = can_boot_trace image h ∧
  same_but_version (can_boot_header image h) (can_boot_header image h').
Proof.
  intros (Hc & Hl & HV & HI & HS & HF & HA).
  unfold can_boot_verdict, can_boot_trace, can_boot_header, verifies,
    checksum_ok.
  rewrite Hl, HV, HI, HS, HF, HA. split; [done|]. split; [done|].
  destruct (nFailure h && nSuccess h && nValid h && negb (nInvalid h));
    [|by repeat split].
  destruct (crc_24 (image - length h) (length h + 3) =? 0); by repeat split.
Qed.

(** C4: the header [switcher_choose] returns, and the CRC calls it makes,
    are the same in any two stores whose candidates agree in everything but
    [version]; and when [_can_boot] accepts both candidates the result is
    [a] if [a >= b] as addresses and [b] otherwise, whatever the versions. *)
Theorem choose_by_address a b s1 s2 ha1 hb1 ha2 hb2 :
  s1 !! a = Some ha1 → s1 !! b = Some hb1 →
  s2 !! a = Some ha2 → s2 !! b = Some hb2 →
  same_but_version ha1 ha2 → same_but_version hb1 hb2 →
  ∃ r s1' s2' t,
    switcher_choose a b s1 = Some (r, s1', t) ∧
    switcher_choose a b s2 = Some (r, s2', t) ∧
    ∀ sa ta sb tb,
      _can_boot a s1 = Some (true, sa, ta) →
      _can_boot b sa = Some (true, sb, tb) →
      r = if a >=? b then a else b.
Proof.
  intros Ha1 Hb1 Ha2 Hb2 Hsa Hsb.
  destruct (same_but_version_can_boot a _ _ Hsa) as (Hva & Hta & Hha).
  assert (∃ hb1' hb2',
    <[a := can_boot_header a ha1]> s1 !! b = Some hb1' ∧
    <[a := can_boot_header a ha2]> s2 !! b = Some hb2' ∧
    same_but_version hb1' hb2') as (hb1' & hb2' & Hb1' & Hb2' & Hsb').
  { destruct (decide (a = b)) as [->|Hne].
    - do 2 eexists. rewrite !lookup_insert_eq.
      split; [done|]. split; [done|]. exact Hha.
    - exists hb1, hb2. by rewrite !lookup_insert_ne. }
  destruct (same_but_version_can_boot b _ _ Hsb') as (Hvb & Htb & _).
  do 4 eexists. split; [by apply choose_run|]. split.
  - rewrite (choose_run _ _ _ _ _ Ha2 Hb2'). by rewrite Hva, Hvb, Hta, Htb.
  - intros sa ta sb tb Hca Hcb.
    rewrite (can_boot_run _ _ _ Ha1) in Hca. injection Hca as -> <- _.
    rewrite (can_boot_run _ _ _ Hb1') in Hcb. injection Hcb as -> _ _.
    done.
Qed.

(** *** The attempt budget *)

Lemma shifted_attempts a : uint4 (uint8 (Z.shiftl a 1)) = (2 * a) mod 16.
Proof.
  unfold uint4, uint8. rewrite Z.shiftl_mul_pow2 by lia.
  change 255 with (Z.ones 8). change 15 with (Z.ones 4).
  rewrite !Z.land_ones by lia.
  change (2 ^ 8) with 256. change (2 ^ 4) with 16. change (2 ^ 1) with 2.
  Z.div_mod_to_equations. lia.
Qed.

Lemma boot_header_attempts_eq h :
  nSuccess h = true → nAttempts (boot_header h) = (2 * nAttempts h) mod 16.
Proof. intros HS. unfold boot_header. rewrite HS. apply shifted_attempts. Qed.

Lemma boot_header_nSuccess h : nSuccess (boot_header h) = nSuccess h.
Proof. apply boot_header_attempts. Qed.

Lemma exec_boot_run image s h :
  image ≠ NULL → s !! image = Some h →
  exec (Boot image) s = Some (tt, <[image := boot_header h]> s, []).
Proof.
  intros Hn Hs. simpl. by run_with (boot_run _ _ _ Hn Hs).
Qed.

Lemma run_cons o os s s1 t1 :
  exec o s = Some (tt, s1, t1) →
  run (o :: os) s =
    match run os s1 with
    | Some (y, s2, t2) => Some (y, s2, t1 ++ t2)
    | None => None
    end.
Proof. intros Hrun. simpl. by run_with Hrun. Qed.

Lemma run_cons_inv o os s s' t :
  run (o :: os) s = Some (tt, s', t) →
  ∃ s1 t1 t2,
    exec o s = Some (tt, s1, t1) ∧
    run os s1 = Some (tt, s', t2) ∧ t = t1 ++ t2.
Proof.
  simpl. intros ([] & s1 & t1 & t2 & Hexec & Hrun & ->)%bind_inv.
  by exists s1, t1, t2.
Qed.

Lemma exhausted_verdict image h :
  exhausted h → can_boot_verdict image h = false.
Proof.
  intros [HS HA]. unfold can_boot_verdict. rewrite HS, HA. simpl.
  destruct (nFailure h), (nValid h), (nInvalid h), (checksum_ok image h);
    done.
Qed.

Lemma exhausted_can_boot_header image h :
  exhausted h → exhausted (can_boot_header image h).
Proof.
  intros [HS HA]. destruct (can_boot_header_validity image h)
    as (_ & _ & _ & HS' & _ & HA').
  split; congruence.
Qed.

Lemma exhausted_op_header o image h :
  o ≠ SetSuccess image → exhausted h → exhausted (op_header o image h).
Proof.
  intros Ho Hex. destruct o as [a b|image'|image'|image']; unfold op_header.
  - repeat case_decide; eauto using exhausted_can_boot_header.
  - case_decide; [|done]. destruct Hex as [HS HA]. split.
    + by rewrite boot_header_nSuccess.
    + by rewrite boot_header_attempts_eq, HA.
  - case_decide; [congruence|done].
  - case_decide; [|done]. destruct Hex. by split.
Qed.

Lemma exhausted_run os : ∀ image s s' t h,
  Forall (λ o, o ≠ SetSuccess image) os →
  run os s = Some (tt, s', t) →
  s !! image = Some h → exhausted h →
  ∃ h', s' !! image = Some h' ∧ exhausted h'.
Proof.
  induction os as [|o os IH]; intros image s s' t h Hos Hrun Hs Hex.
  - injection Hrun as <- _. by exists h.
  - apply Forall_cons in Hos as [Ho Hos].
    apply run_cons_inv in Hrun as (s1 & t1 & t2 & Hexec & Hrun & _).
    eapply (IH image s1); [done | done | | by apply exhausted_op_header].
    by rewrite (exec_lookup _ _ _ _ Hexec image), Hs.
Qed.

Lemma exhausted_not_chosen a b image s h r s' t :
  image ≠ NULL → s !! image = Some h → exhausted h →
  switcher_choose a b s = Some (r, s', t) → r ≠ image.
Proof.
  intros Hn Hs Hex (ha & hb & Ha & Hb & -> & _)%choose_inv.
  destruct (pick_cases a b (can_boot_verdict a ha) (can_boot_verdict b hb))
    as [(-> & _)|[[-> Hca]|[-> Hcb]]]; [congruence| |].
  - intros ->. rewrite Hs in Ha. injection Ha as <-.
    by rewrite exhausted_verdict in Hca.
  - intros ->. destruct (decide (a = image)) as [->|Hne].
    + rewrite lookup_insert_eq in Hb. injection Hb as <-.
      rewrite Hs in Ha. injection Ha as <-.
      rewrite exhausted_verdict in Hcb; [done|].
      by apply exhausted_can_boot_header.
    + rewrite lookup_insert_ne in Hb by done.
      rewrite Hs in Hb. injection Hb as <-.
      by rewrite exhausted_verdict in Hcb.
Qed.

(** C5: for a header whose [nSuccess] is still set, one [switcher_boot]
    replaces [nAttempts] by its left shift within four bits (twice the
    value, modulo 16) and writes nothing else; after four boots in a row
    [nAttempts] is 0, the two validity latches are as they were, and no
    later [switcher_choose] returns the header, whatever calls come in
    between, as long as none of them records a success for it. *)
Theorem four_boots_exhaust image s h :
  image ≠ NULL → s !! image = Some h → nSuccess h = true →
  (∃ h1,
     switcher_boot image s =
       Some (Loads 0 (image - length h), <[image := h1]> s, []) ∧
     nAttempts h1 = (2 * nAttempts h) mod 16 ∧ same_but_attempts h h1) ∧
  ∃ s4 h4,
    run (replicate 4 (Boot image)) s = Some (tt, s4, []) ∧
    s4 !! image = Some h4 ∧ nAttempts h4 = 0 ∧
    nValid h4 = nValid h ∧ nInvalid h4 = nInvalid h ∧
    ∀ os s5 t a b r s6 t',
      Forall (λ o, o ≠ SetSuccess image) os →
      run os s4 = Some (tt, s5, t) →
      switcher_choose a b s5 = Some (r, s6, t') →
      r ≠ image.
Proof.
  intros Hn Hs HS. split.
  { exists (boot_header h). split; [by apply boot_run|].
    split; [by apply boot_header_attempts_eq | apply boot_header_attempts]. }
  assert (∀ k, nSuccess k = true → nSuccess (boot_header k) = true) as Hkeep.
  { intros k Hk. by rewrite boot_header_nSuccess. }
  pose proof (Hkeep _ HS) as HS1. pose proof (Hkeep _ HS1) as HS2.
  pose proof (Hkeep _ HS2) as HS3.
  set (h1 := boot_header h) in *. set (h2 := boot_header h1) in *.
  set (h3 := boot_header h2) in *. set (h4 := boot_header h3) in *.
  assert (nAttempts h4 = 0) as HA4.
  { unfold h4, h3, h2, h1. rewrite !boot_header_attempts_eq by done.
    generalize (nAttempts h). intros x. Z.div_mod_to_equations. lia. }
  eexists _, h4. split; [|split; [|split; [|split; [|split]]]].
  - simpl replicate.
    erewrite run_cons; [|by apply exec_boot_run].
    erewrite run_cons; [|apply exec_boot_run, lookup_insert_eq; done].
    erewrite run_cons; [|apply exec_boot_run, lookup_insert_eq; done].
    erewrite run_cons; [|apply exec_boot_run, lookup_insert_eq; done].
    done.
  - apply lookup_insert_eq.
  - done.
  - unfold h4, h3, h2, h1.
    repeat (etrans; [apply boot_header_attempts|]). done.
  - unfold h4, h3, h2, h1.
    repeat (etrans; [apply boot_header_attempts|]). done.
  - intros os s5 t a b r s6 t' Hos Hrun Hch.
    destruct (exhausted_run os image _ _ _ h4 Hos Hrun) as (h5 & Hs5 & Hex5).
    { apply lookup_insert_eq. }
    { split; [by apply Hkeep | done]. }
    by eapply exhausted_not_chosen.
Qed.

(** *** Forward-only writes *)

Lemma bits_subset_land a b : Z.land a b = a → bits_subset a b.
Proof.
  intros Hland i Hi. rewrite <- Hland, Z.land_spec in Hi.
  by apply andb_true_iff in Hi as [_ ?].
Qed.

Lemma restricts_refl h : restricts h h.
Proof. unfold restricts, latch_kept, bits_subset. by repeat split. Qed.

Lemma restricts_trans h1 h2 h3 :
  restricts h1 h2 → restricts h2 h3 → restricts h1 h3.
Proof.
  unfold restricts, latch_kept, bits_subset.
  intros (?&?&?&?&?&?) (?&?&?&?&?&?). repeat split; eauto with lia.
Qed.

Lemma restricts_can_boot_header image h :
  restricts h (can_boot_header image h).
Proof.
  unfold can_boot_header.
  destruct (verifies h); [|apply restricts_refl].
  destruct (checksum_ok image h);
    unfold restricts, latch_kept, bits_subset; by repeat split.
Qed.

#[local] Hint Resolve restricts_refl restricts_trans
  restricts_can_boot_header : switcher.

Lemma budget_boot_header h :
  budget h → budget (boot_header h) ∧ restricts h (boot_header h).
Proof.
  intros Hb. unfold boot_header.
  destruct (nSuccess h); [|split; [done | apply restricts_refl]].
  unfold budget, restricts, latch_kept. simpl.
  destruct Hb as [->|[->|[->|[->| ->]]]]; (split; [by auto 6|]);
    repeat split; by (done || apply bits_subset_land).
Qed.

Lemma budget_op_header o p h :
  budget h → budget (op_header o p h) ∧ restricts h (op_header o p h).
Proof.
  intros Hb. destruct o as [a b|image|image|image]; unfold op_header.
  - assert (∀ q k, budget k → budget (can_boot_header q k)) as Hkeep.
    { intros q k. unfold budget.
      by destruct (can_boot_header_validity q k) as (_&_&_&_&_& ->). }
    repeat case_decide; split; eauto with switcher.
  - case_decide; [by apply budget_boot_header|].
    split; [done | apply restricts_refl].
  - case_decide; [|split; [done | apply restricts_refl]].
    split; [done|]. unfold restricts, latch_kept, bits_subset.
    by repeat split.
  - case_decide; [|split; [done | apply restricts_refl]].
    split; [done|]. unfold restricts, latch_kept, bits_subset.
    by repeat split.
Qed.

Lemma reachable_budget s :
  reachable s → ∀ p h, s !! p = Some h → budget h.
Proof.
  induction 1 as [s Hfresh|s o s' t _ IH Hexec]; intros p h Hs.
  - destruct (Hfresh p h Hs) as (_ & _ & _ & _ & HA). by left.
  - rewrite (exec_lookup _ _ _ _ Hexec p) in Hs.
    destruct (s !! p) as [h0|] eqn:Hs0; [|done].
    injection Hs as <-. by apply budget_op_header, (IH p).
Qed.

(** Away from those values a shift can set a bit that was clear: the
    restriction to stores reached from fresh headers is needed. *)
Example shift_sets_a_clear_bit :
  nAttempts (boot_header (Image 0 0 0 true true true true 1)) = 2 ∧
  ¬ bits_subset 2 1.
Proof.
  split; [done|]. intros Hsub. by specialize (Hsub 1 eq_refl).
Qed.

(** C7: in every store that [switcher_choose], [switcher_boot],
    [switcher_set_success] and [switcher_set_failure] can produce from
    freshly flashed headers, one more call leaves each header with no
    status bit set that was clear before and with the set bits of
    [nAttempts] among those set before (so [nAttempts] does not grow); no
    header appears or disappears. *)
Theorem writes_only_restrict s o s' t :
  reachable s → exec o s = Some (tt, s', t) →
  ∀ p,
    match s !! p, s' !! p with
    | Some before, Some after => restricts before after
    | None, None => True
    | _, _ => False
    end.
Proof.
  intros Hreach Hexec p. rewrite (exec_lookup _ _ _ _ Hexec p).
  destruct (s !! p) as [h|] eqn:Hs; simpl; [|done].
  by apply budget_op_header, (reachable_budget s Hreach p).
Qed.

(** ** Further facts about single calls *)

Lemma can_boot_header_verifies image h :
  verifies (can_boot_header image h) = true →
  can_boot_header image h = h ∧ verifies h = true.
Proof.
  unfold can_boot_header, verifies.
  destruct h as [c v l [] [] [] [] n], (checksum_ok image _); simpl; done.
Qed.

Lemma can_boot_header_twice image h :
  can_boot_header image (can_boot_header image h) = can_boot_header image h.
Proof.
  unfold can_boot_header, verifies, checksum_ok.
  destruct h as [c v l [] [] [] [] n]; simpl; try done.
  destruct (crc_24 (image - l) (l + 3) =? 0) eqn:Hc; simpl; [done|].
  by rewrite Hc.
Qed.

Lemma can_boot_verdict_stable image h :
  can_boot_verdict image (can_boot_header image h) = can_boot_verdict image h.
Proof.
  unfold can_boot_verdict, can_boot_header, verifies, checksum_ok.
  destruct h as [c v l [] [] [] [] n]; simpl; try done.
  destruct (crc_24 (image - l) (l + 3) =? 0) eqn:Hc; simpl; [done|].
  by rewrite Hc.
Qed.

Lemma can_boot_verdict_settled image h :
  can_boot_verdict image h = true →
  verifies (can_boot_header image h) = false.
Proof.
  unfold can_boot_verdict, can_boot_header, verifies, checksum_ok.
  destruct h as [c v l [] [] [] [] n]; simpl; try done.
  by destruct (crc_24 (image - l) (l + 3) =? 0).
Qed.

(** The header the second [_can_boot] of [switcher_choose] reads. *)
Lemma choose_second_header a b (s : gmap Z image_t) ha hb :
  s !! a = Some ha →
  <[a := can_boot_header a ha]> s !! b = Some hb →
  a = b ∧ hb = can_boot_header a ha ∨ a ≠ b ∧ s !! b = Some hb.
Proof.
  intros Ha Hb. destruct (decide (a = b)) as [->|Hne].
  - rewrite lookup_insert_eq in Hb. injection Hb as <-. by left.
  - rewrite lookup_insert_ne in Hb by done. by right.
Qed.

(** Every CRC call of one entry point is made for a header of the store on
    which [_can_boot] gets as far as the CRC, over that header's image. *)
Lemma exec_trace o s s' t e :
  exec o s = Some (tt, s', t) → e ∈ t →
  ∃ p h, s !! p = Some h ∧ verifies h = true ∧
         e = EvCrc24 p (p - length h) (length h + 3).
Proof.
  destruct o as [a b|image|image|image]; simpl.
  - intros (r & s1 & t1 & t2 & Hrun & [= <- <-] & ->)%bind_inv.
    rewrite app_nil_r.
    apply choose_inv in Hrun as (ha & hb & Ha & Hb & _ & _ & ->).
    intros [Hin|Hin]%elem_of_app.
    + exists a, ha. split; [done|]. split.
      * unfold can_boot_trace in Hin.
        destruct (verifies ha); [done | by apply elem_of_nil in Hin].
      * by apply can_boot_trace_image.
    + assert (verifies hb = true) as Hv.
      { unfold can_boot_trace in Hin.
        destruct (verifies hb); [done | by apply elem_of_nil in Hin]. }
      apply can_boot_trace_image in Hin.
      destruct (choose_second_header _ _ _ _ _ Ha Hb) as [[-> ->]|[_ Hb']].
      * destruct (can_boot_header_verifies _ _ Hv) as [Hfix Hv'].
        rewrite Hfix in Hin. by exists b, ha.
      * by exists b, hb.
  - intros (c & s1 & t1 & t2 & Hrun & [= <- <-] & ->)%bind_inv.
    rewrite app_nil_r. destruct (decide (image = NULL)) as [->|Hn].
    + rewrite boot_null in Hrun. injection Hrun as _ _ <-.
      by intros ?%elem_of_nil.
    + apply boot_inv in Hrun as (h & _ & _ & _ & ->); [|done].
      by intros ?%elem_of_nil.
  - unfold switcher_set_success, write.
    destruct (s !! image); [|done]. intros [= _ <-]. by intros ?%elem_of_nil.
  - unfold switcher_set_failure, write.
    destruct (s !! image); [|done]. intros [= _ <-]. by intros ?%elem_of_nil.
Qed.

(** A property of the header at [image] that every call of a sequence
    keeps holds at its end; if it also keeps [_can_boot] away from the
    CRC, the sequence runs no CRC for that header. *)
Lemma run_keeps (P : image_t → Prop) (allowed : op → Prop) image os :
  (∀ o h, allowed o → P h → P (op_header o image h)) →
  ∀ s s' t h,
    Forall allowed os → run os s = Some (tt, s', t) →
    s !! image = Some h → P h →
    (∃ h', s' !! image = Some h' ∧ P h') ∧
    ((∀ k, P k → verifies k = false) →
     ∀ data data_len, EvCrc24 image data data_len ∉ t).
Proof.
  intros Hkeep. induction os as [|o os IH]; intros s s' t h Hos Hrun Hs HP.
  - injection Hrun as <- <-. split; [by exists h|].
    intros _ data data_len. apply not_elem_of_nil.
  - apply Forall_cons in Hos as [Ho Hos].
    apply run_cons_inv in Hrun as (s1 & t1 & t2 & Hexec & Hrun & ->).
    assert (s1 !! image = Some (op_header o image h)) as Hs1.
    { by rewrite (exec_lookup _ _ _ _ Hexec image), Hs. }
    destruct (IH s1 s' t2 _ Hos Hrun Hs1 (Hkeep _ _ Ho HP)) as [Hend Hquiet].
    split; [exact Hend|].
    intros Hidle data data_len [Hin|Hin]%elem_of_app.
    + destruct (exec_trace _ _ _ _ _ Hexec Hin) as (p & k & Hk & Hv & [= -> _ _]).
      rewrite Hs in Hk. injection Hk as <-.
      by rewrite (Hidle _ HP) in Hv.
    + by eapply Hquiet.
Qed.

(** ** Marks set by the running image *)

Lemma failed_verdict image h :
  nFailure h = false →
  can_boot_verdict image h = false ∧ verifies h = false.
Proof.
  intros HF. unfold can_boot_verdict, verifies. by rewrite HF.
Qed.

Lemma failed_op_header o image h :
  nFailure h = false → nFailure (op_header o image h) = false.
Proof.
  intros HF. destruct o as [a b|image'|image'|image']; unfold op_header.
  - assert (∀ q k, nFailure k = false → nFailure (can_boot_header q k) = false)
      as Hcan.
    { intros q k Hk.
      by destruct (can_boot_header_validity q k) as (_&_&_&_& -> &_). }
    repeat case_decide; auto.
  - case_decide; [|done].
    by destruct (boot_header_attempts h) as (_&_&_&_&_&_& ->).
  - by case_decide.
  - by case_decide.
Qed.

Lemma not_chosen_when_refused a b image s h r s' t :
  image ≠ NULL → s !! image = Some h →
  (∀ k, same_but_validity h k → can_boot_verdict image k = false) →
  switcher_choose a b s = Some (r, s', t) → r ≠ image.
Proof.
  intros Hn Hs Href (ha & hb & Ha & Hb & -> & _)%choose_inv.
  destruct (pick_cases a b (can_boot_verdict a ha) (can_boot_verdict b hb))
    as [(-> & _)|[[-> Hca]|[-> Hcb]]]; [congruence| |].
  - intros ->. rewrite Hs in Ha. injection Ha as <-.
    rewrite Href in Hca; [done | auto with switcher].
  - intros ->.
    destruct (choose_second_header _ _ _ _ _ Ha Hb) as [[-> ->]|[_ Hb']].
    + rewrite Hs in Ha. injection Ha as <-.
      rewrite Href in Hcb; [done | auto with switcher].
    + rewrite Hs in Hb'. injection Hb' as <-.
      rewrite Href in Hcb; [done | auto with switcher].
Qed.

(** X1: once [switcher_set_failure] has been called for an image, no later
    sequence of calls, [switcher_set_success] for the same image included,
    makes [_can_boot] accept it or [switcher_choose] return it; its CRC is
    never run. *)
Theorem failure_is_permanent image s s1 t1 os s2 t2 :
  image ≠ NULL →
  switcher_set_failure image s = Some (tt, s1, t1) →
  run os s1 = Some (tt, s2, t2) →
  _can_boot image s2 = Some (false, s2, []) ∧
  (∀ a b r s3 t3, switcher_choose a b s2 = Some (r, s3, t3) → r ≠ image) ∧
  (∀ data data_len, EvCrc24 image data data_len ∉ t2).
Proof.
  intros Hn Hset Hrun.
  assert (∃ h1, s1 !! image = Some h1 ∧ nFailure h1 = false)
    as (h1 & Hs1 & HF1).
  { unfold switcher_set_failure, write in Hset.
    destruct (s !! image) as [h|]; [|done]. injection Hset as <- _.
    eexists. by rewrite lookup_insert_eq. }
  destruct (run_keeps (λ k, nFailure k = false) (λ _, True) image os
              (λ o k _, failed_op_header o image k) s1 s2 t2 h1)
    as [(h2 & Hs2 & HF2) Hquiet]; [by apply Forall_true | done..|].
  split; [|split].
  - rewrite (can_boot_run _ _ _ Hs2).
    destruct (failed_verdict image h2 HF2) as [-> Hidle].
    by rewrite can_boot_header_idle, can_boot_trace_idle, insert_id.
  - intros a b r s3 t3. apply (not_chosen_when_refused a b image s2 h2); [done..|].
    intros k (_&_&_&_& HFk &_). apply failed_verdict. congruence.
  - apply Hquiet. intros k Hk. by apply failed_verdict.
Qed.

Lemma succeeded_op_header o image h :
  o ≠ SetFailure image → nSuccess h = false → nFailure h = true →
  op_header o image h = h.
Proof.
  intros Ho HS HF.
  assert (verifies h = false) as Hidle.
  { unfold verifies. by rewrite HS, HF. }
  destruct o as [a b|image'|image'|image']; unfold op_header.
  - repeat case_decide; by rewrite ?(can_boot_header_idle _ h Hidle).
  - case_decide; [|done]. unfold boot_header. by rewrite HS.
  - case_decide; [|done]. destruct h; simpl in *. by subst.
  - case_decide; [congruence|done].
Qed.

(** X2: after [switcher_set_success] on an image that is not marked failed,
    no later sequence of calls writes its header, runs its CRC or makes
    [_can_boot] refuse it, as long as [switcher_set_failure] is not called
    for it: boots do not use up its attempts. *)
Theorem success_persists image s h s1 t1 os s2 t2 :
  s !! image = Some h → nFailure h = true →
  switcher_set_success image s = Some (tt, s1, t1) →
  Forall (λ o, o ≠ SetFailure image) os →
  run os s1 = Some (tt, s2, t2) →
  s2 !! image = Some (set_nSuccess false h) ∧
  _can_boot image s2 = Some (true, s2, []) ∧
  (∀ data data_len, EvCrc24 image data data_len ∉ t2).
Proof.
  intros Hs HF Hset Hos Hrun. unfold switcher_set_success in Hset.
  rewrite (write_Some set_nSuccess _ false _ _ Hs) in Hset.
  injection Hset as <- _.
  destruct (run_keeps (λ k, k = set_nSuccess false h)
              (λ o, o ≠ SetFailure image) image os) with
    (s := <[image := set_nSuccess false h]> s) (s' := s2) (t := t2)
    (h := set_nSuccess false h)
    as [(h2 & Hs2 & ->) Hquiet]; [|done..|apply lookup_insert_eq|done|].
  { intros o k Ho ->. by apply succeeded_op_header. }
  assert (verifies (set_nSuccess false h) = false) as Hidle.
  { unfold verifies. simpl. by rewrite andb_false_r. }
  split; [done|]. split.
  - rewrite (can_boot_run _ _ _ Hs2).
    rewrite can_boot_header_idle, can_boot_trace_idle, insert_id by done.
    unfold can_boot_verdict. simpl. by rewrite HF.
  - apply Hquiet. by intros k ->.
Qed.

(** X3: marking twice is marking once, and a success mark and a failure
    mark, for the same image or for two, give the same flash in either
    order (and neither order has a result when a header is missing). *)
Theorem marks_compose image image' s :
  (switcher_set_success image;; switcher_set_success image) s
    = switcher_set_success image s ∧
  (switcher_set_failure image;; switcher_set_failure image) s
    = switcher_set_failure image s ∧
  (switcher_set_success image;; switcher_set_failure image') s
    = (switcher_set_failure image';; switcher_set_success image) s.
Proof.
  unfold switcher_set_success, switcher_set_failure, bind, write.
  split; [|split].
  - destruct (s !! image) as [h|] eqn:Hs; [|done].
    by rewrite lookup_insert_eq, insert_insert_eq.
  - destruct (s !! image) as [h|] eqn:Hs; [|done].
    by rewrite lookup_insert_eq, insert_insert_eq.
  - destruct (decide (image = image')) as [<-|Hne].
    + destruct (s !! image) as [h|] eqn:Hs; [|done].
      by rewrite !lookup_insert_eq, !insert_insert_eq.
    + destruct (s !! image) as [h|] eqn:Hs, (s !! image') as [h'|] eqn:Hs';
        rewrite ?lookup_insert_ne, ?Hs, ?Hs' by done; try done.
      by rewrite insert_insert_ne.
Qed.

(** ** What the validity latches do over time *)

Lemma validated_op_header o image h :
  nValid h = false → nValid (op_header o image h) = false.
Proof.
  intros HV.
  assert (∀ q k, nValid k = false → nValid (can_boot_header q k) = false)
    as Hcan.
  { intros q k Hk. unfold can_boot_header, verifies.
    rewrite Hk. by rewrite andb_false_r. }
  destruct o as [a b|image'|image'|image']; unfold op_header.
  - repeat case_decide; auto.
  - case_decide; [|done].
    by destruct (boot_header_attempts h) as (_&_&_& -> &_).
  - by case_decide.
  - by case_decide.
Qed.

(** X9: a header whose [nValid] is clear keeps it clear through every
    sequence of calls, and none of them runs the CRC for it: an image that
    passed its check is not checked again. *)
Theorem validated_never_checked_again image s h os s' t :
  s !! image = Some h → nValid h = false →
  run os s = Some (tt, s', t) →
  (∃ h', s' !! image = Some h' ∧ nValid h' = false) ∧
  (∀ data data_len, EvCrc24 image data data_len ∉ t).
Proof.
  intros Hs HV Hrun.
  destruct (run_keeps (λ k, nValid k = false) (λ _, True) image os
              (λ o k _, validated_op_header o image k) s s' t h)
    as [Hend Hquiet]; [by apply Forall_true | done..|].
  split; [exact Hend|]. apply Hquiet.
  intros k Hk. unfold verifies. rewrite Hk. by rewrite andb_false_r.
Qed.

Lemma nInvalid_op_header o image h :
  nInvalid (op_header o image h) = nInvalid h.
Proof.
  assert (∀ q k, nInvalid (can_boot_header q k) = nInvalid k) as Hcan.
  { intros q k. unfold can_boot_header, verifies.
    destruct k as [c v l [] [] [] [] n], (checksum_ok q _); done. }
  destruct o as [a b|image'|image'|image']; unfold op_header.
  - repeat case_decide; by rewrite ?Hcan.
  - case_decide; [|done].
    by destruct (boot_header_attempts h) as (_&_&_&_& -> &_).
  - by case_decide.
  - by case_decide.
Qed.

(** X10: no sequence of calls changes the [nInvalid] bit of any header,
    and the CRC is never run for a header whose [nInvalid] is still set. *)
Theorem nInvalid_never_changes image s h os s' t :
  s !! image = Some h →
  run os s = Some (tt, s', t) →
  (∃ h', s' !! image = Some h' ∧ nInvalid h' = nInvalid h) ∧
  (nInvalid h = true → ∀ data data_len, EvCrc24 image data data_len ∉ t).
Proof.
  intros Hs Hrun.
  destruct (run_keeps (λ k, nInvalid k = nInvalid h) (λ _, True) image os)
    with (s := s) (s' := s') (t := t) (h := h)
    as [Hend Hquiet]; [|by apply Forall_true|done..|].
  { intros o k _ Hk. by rewrite nInvalid_op_header. }
  split; [exact Hend|]. intros HI. apply Hquiet.
  intros k Hk. unfold verifies. rewrite Hk, HI. by rewrite andb_false_r.
Qed.

(** ** More on [switcher_choose] *)

Lemma pick_swap a b ca cb : a ≠ b → pick b a cb ca = pick a b ca cb.
Proof.
  intros Hne. unfold pick. destruct ca, cb; simpl; try done.
  destruct (Z.geb_spec a b), (Z.geb_spec b a); try done; lia.
Qed.

(** X4: the order of the two candidates does not matter: with the arguments
    swapped [switcher_choose] returns the same header and leaves the same
    flash, having made the same CRC calls in the other order. *)
Theorem choose_order_irrelevant a b s r s' t :
  switcher_choose a b s = Some (r, s', t) →
  ∃ t', switcher_choose b a s = Some (r, s', t') ∧ t' ≡ₚ t.
Proof.
  intros Hrun. destruct (decide (a = b)) as [->|Hne]; [by exists t|].
  apply choose_inv in Hrun as (ha & hb & Ha & Hb & -> & -> & ->).
  rewrite lookup_insert_ne in Hb by done.
  exists (can_boot_trace b hb ++ can_boot_trace a ha). split.
  - rewrite (choose_run b a s hb ha Hb); [|by rewrite lookup_insert_ne].
    by rewrite pick_swap, insert_insert_ne.
  - apply Permutation_app_comm.
Qed.

Lemma choose_header_twice a b p h :
  op_header (Choose a b) p (op_header (Choose a b) p h)
  = op_header (Choose a b) p h.
Proof.
  unfold op_header. repeat case_decide; subst;
    by rewrite ?can_boot_header_twice.
Qed.

Lemma can_boot_trace_again image h :
  can_boot_trace image (can_boot_header image h) ⊆ can_boot_trace image h.
Proof.
  unfold can_boot_trace at 1.
  destruct (verifies (can_boot_header image h)) eqn:Hv;
    [|apply list_subseteq_nil].
  destruct (can_boot_header_verifies _ _ Hv) as [Hfix Hv'].
  unfold can_boot_trace. by rewrite Hfix, Hv'.
Qed.

(** X5: a second [switcher_choose] right after the first returns the same
    header and leaves the flash as the first left it; every CRC call it
    makes is one the first call made too. *)
Theorem choose_twice a b s r s' t :
  switcher_choose a b s = Some (r, s', t) →
  ∃ t', switcher_choose a b s' = Some (r, s', t') ∧ t' ⊆ t.
Proof.
  intros Hrun.
  pose proof (choose_lookup _ _ _ _ _ _ Hrun) as Hlook.
  apply choose_inv in Hrun as (ha & hb & Ha & Hb & -> & _ & ->).
  assert (∃ ha2 hb2,
    s' !! a = Some ha2 ∧
    <[a := can_boot_header a ha2]> s' !! b = Some hb2 ∧
    can_boot_verdict a ha2 = can_boot_verdict a ha ∧
    can_boot_verdict b hb2 = can_boot_verdict b hb ∧
    can_boot_trace a ha2 ⊆ can_boot_trace a ha ∧
    can_boot_trace b hb2 ⊆ can_boot_trace b hb)
    as (ha2 & hb2 & Ha2 & Hb2 & Hva & Hvb & Hta & Htb).
  { destruct (choose_second_header _ _ _ _ _ Ha Hb) as [[-> ->]|[Hne Hb']].
    - exists (can_boot_header b ha), (can_boot_header b ha).
      split_and!.
      + rewrite Hlook, Ha. simpl. unfold op_header.
        by rewrite !decide_True, can_boot_header_twice.
      + by rewrite lookup_insert_eq, can_boot_header_twice.
      + apply can_boot_verdict_stable.
      + done.
      + apply can_boot_trace_again.
      + done.
    - exists (can_boot_header a ha), (can_boot_header b hb).
      split_and!.
      + rewrite Hlook, Ha. simpl. unfold op_header.
        repeat case_decide; congruence.
      + rewrite lookup_insert_ne, Hlook, Hb' by done. simpl.
        unfold op_header. repeat case_decide; congruence.
      + apply can_boot_verdict_stable.
      + apply can_boot_verdict_stable.
      + apply can_boot_trace_again.
      + apply can_boot_trace_again. }
  exists (can_boot_trace a ha2 ++ can_boot_trace b hb2). split.
  - pose proof (choose_run a b s' ha2 hb2 Ha2 Hb2) as Hrun2.
    assert (<[b := can_boot_header b hb2]>
              (<[a := can_boot_header a ha2]> s') = s') as Hsame.
    { apply map_eq. intros p.
      rewrite (choose_lookup _ _ _ _ _ _ Hrun2 p), Hlook.
      destruct (s !! p) as [h|]; cbn -[op_header]; [|done].
      by rewrite choose_header_twice. }
    by rewrite Hrun2, Hsame, Hva, Hvb.
  - intros e [Hin|Hin]%elem_of_app; apply elem_of_app; auto.
Qed.

(** X6: the header [switcher_choose] returns is one that [_can_boot]
    accepts again on the flash the call left, with no CRC call and no
    write. *)
Theorem chosen_stays_bootable a b s r s' t :
  r ≠ NULL →
  switcher_choose a b s = Some (r, s', t) →
  (r = a ∨ r = b) ∧ _can_boot r s' = Some (true, s', []).
Proof.
  intros Hn (ha & hb & Ha & Hb & Hr & -> & _)%choose_inv.
  set (s' := <[b := can_boot_header b hb]> (<[a := can_boot_header a ha]> s)).
  assert (s' !! a = Some (can_boot_header a ha)) as Ha'.
  { unfold s'.
    destruct (choose_second_header _ _ _ _ _ Ha Hb) as [[-> ->]|[Hne _]].
    - by rewrite lookup_insert_eq, can_boot_header_twice.
    - by rewrite lookup_insert_ne, lookup_insert_eq. }
  assert (s' !! b = Some (can_boot_header b hb)) as Hb'.
  { apply lookup_insert_eq. }
  assert (∀ q k, s' !! q = Some (can_boot_header q k) →
                 can_boot_verdict q k = true →
                 _can_boot q s' = Some (true, s', [])) as Hagain.
  { intros q k Hq Hk. rewrite (can_boot_run _ _ _ Hq).
    rewrite can_boot_verdict_stable, Hk.
    rewrite can_boot_header_idle, can_boot_trace_idle
      by by apply can_boot_verdict_settled.
    by rewrite insert_id. }
  destruct (pick_cases a b (can_boot_verdict a ha) (can_boot_verdict b hb))
    as [(HN & _)|[[Hra Hca]|[Hrb Hcb]]]; [congruence| |].
  - rewrite Hra in Hr. subst r. split; [by left | by eapply Hagain].
  - rewrite Hrb in Hr. subst r. split; [by right | by eapply Hagain].
Qed.

(** X11: one [switcher_choose] runs the CRC at most twice, each time for
    one of its two candidates, over that candidate's image and checksum,
    and only for a candidate with [nFailure], [nSuccess] and [nValid] set
    and [nInvalid] clear. *)
Theorem choose_crc_calls a b s r s' t :
  switcher_choose a b s = Some (r, s', t) →
  (List.length t <= 2)%nat ∧
  ∀ e, e ∈ t →
    ∃ p h, (p = a ∨ p = b) ∧ s !! p = Some h ∧
           e = EvCrc24 p (p - length h) (length h + 3) ∧
           nFailure h = true ∧ nSuccess h = true ∧
           nValid h = true ∧ nInvalid h = false.
Proof.
  intros (ha & hb & Ha & Hb & _ & _ & ->)%choose_inv.
  assert (∀ k, verifies k = true →
               nFailure k = true ∧ nSuccess k = true ∧
               nValid k = true ∧ nInvalid k = false) as Hflags.
  { intros k. unfold verifies.
    by destruct (nFailure k), (nSuccess k), (nValid k), (nInvalid k). }
  assert (∀ q k, (List.length (can_boot_trace q k) <= 1)%nat) as Hlen.
  { intros q k. unfold can_boot_trace. destruct (verifies k); simpl; lia. }
  split.
  { rewrite length_app. pose proof (Hlen a ha). pose proof (Hlen b hb). lia. }
  assert (∀ q k e, e ∈ can_boot_trace q k →
                   verifies k = true ∧
                   e = EvCrc24 q (q - length k) (length k + 3)) as Hev.
  { intros q k e Hin. split; [|by apply can_boot_trace_image].
    unfold can_boot_trace in Hin.
    destruct (verifies k); [done | by apply elem_of_nil in Hin]. }
  intros e [Hin|Hin]%elem_of_app.
  - destruct (Hev _ _ _ Hin) as [Hv ->]. exists a, ha.
    split; [by left|]. split; [done|]. split; [done|]. by apply Hflags.
  - destruct (Hev _ _ _ Hin) as [Hv ->].
    destruct (choose_second_header _ _ _ _ _ Ha Hb) as [[-> ->]|[_ Hb']].
    + destruct (can_boot_header_verifies _ _ Hv) as [Hfix Hv'].
      rewrite Hfix. exists b, ha.
      split; [by right|]. split; [done|]. split; [done|]. by apply Hflags.
    + exists b, hb.
      split; [by right|]. split; [done|]. split; [done|]. by apply Hflags.
Qed.

(** ** Counting boots *)

Lemma attempts_range_cases a :
  0 <= a < 2 ^ 4 →
  a = 0 ∨ a = 1 ∨ a = 2 ∨ a = 3 ∨ a = 4 ∨ a = 5 ∨ a = 6 ∨ a = 7 ∨
  a = 8 ∨ a = 9 ∨ a = 10 ∨ a = 11 ∨ a = 12 ∨ a = 13 ∨ a = 14 ∨ a = 15.
Proof. change (2 ^ 4) with 16. lia. Qed.

Lemma attempts_left_shift a :
  0 <= a < 2 ^ 4 →
  attempts_left ((2 * a) mod 16) = pred (attempts_left a).
Proof.
  intros Ha. destruct (attempts_range_cases a Ha)
    as [->|[->|[->|[->|[->|[->|[->|[->|[->|[->|[->|[->|[->|[->|[->| ->]]]]]]]]]]]]]]];
    reflexivity.
Qed.

Lemma attempts_left_zero a :
  0 <= a < 2 ^ 4 → attempts_left a = 0%nat ↔ a = 0.
Proof.
  intros Ha. destruct (attempts_range_cases a Ha)
    as [->|[->|[->|[->|[->|[->|[->|[->|[->|[->|[->|[->|[->|[->|[->| ->]]]]]]]]]]]]]]];
    done.
Qed.

Lemma attempts_left_le a : (attempts_left a <= 4)%nat.
Proof.
  unfold attempts_left.
  destruct (Z.testbit a 0), (Z.testbit a 1), (Z.testbit a 2), (Z.testbit a 3);
    lia.
Qed.

Lemma same_but_attempts_trans h1 h2 h3 :
  same_but_attempts h1 h2 → same_but_attempts h2 h3 →
  same_but_attempts h1 h3.
Proof. unfold same_but_attempts. intuition congruence. Qed.

Lemma boot_header_in_range h : in_range h → in_range (boot_header h).
Proof.
  intros Hr. unfold boot_header. destruct (nSuccess h); [|done].
  destruct Hr as (Hc & Hv & Hl & _).
  exact (conj Hc (conj Hv (conj Hl (uint4_range _)))).
Qed.

Lemma boots_run image k : ∀ s h,
  image ≠ NULL → s !! image = Some h →
  run (replicate k (Boot image)) s
    = Some (tt, <[image := Nat.iter k boot_header h]> s, []).
Proof.
  induction k as [|k IH]; intros s h Hn Hs.
  - simpl. by rewrite insert_id.
  - cbn [replicate]. erewrite run_cons; [|by apply exec_boot_run].
    rewrite (IH _ (boot_header h)); [|done|apply lookup_insert_eq].
    by rewrite insert_insert_eq, Nat.iter_succ_r.
Qed.

Lemma iter_boot_header h k :
  nSuccess h = true → in_range h →
  same_but_attempts h (Nat.iter k boot_header h) ∧
  in_range (Nat.iter k boot_header h) ∧
  nAttempts (Nat.iter k boot_header h) = (2 ^ Z.of_nat k * nAttempts h) mod 16 ∧
  attempts_left (nAttempts (Nat.iter k boot_header h))
    = (attempts_left (nAttempts h) - k)%nat.
Proof.
  intros HS Hr. induction k as [|k (Hsame & Hrk & Hval & Hleft)].
  - simpl. split; [by repeat split|]. split; [done|]. split.
    + destruct Hr as (_ & _ & _ & Ha). change (2 ^ 4) with 16 in Ha.
      rewrite Z.mul_1_l, Z.mod_small; done.
    + lia.
  - rewrite Nat.iter_succ.
    set (hk := Nat.iter k boot_header h) in *.
    assert (nSuccess hk = true) as HSk.
    { destruct Hsame as (_&_&_&_&_& -> &_). done. }
    split; [|split; [|split]].
    + by eapply same_but_attempts_trans, boot_header_attempts.
    + by apply boot_header_in_range.
    + rewrite boot_header_attempts_eq, Hval by done.
      rewrite Nat2Z.inj_succ, Z.pow_succ_r by lia.
      rewrite Z.mul_mod_idemp_r by lia. f_equal. lia.
    + rewrite boot_header_attempts_eq by done.
      rewrite attempts_left_shift by apply Hrk. lia.
Qed.

(** X7: [k] boots in a row of an image that has not recorded a success
    leave its [nAttempts] at [2^k] times the old value modulo 16, and
    every other member, and every other header, as they were. *)
Theorem boots_shift_attempts image s h k :
  image ≠ NULL → s !! image = Some h → nSuccess h = true → in_range h →
  ∃ h',
    run (replicate k (Boot image)) s = Some (tt, <[image := h']> s, []) ∧
    same_but_attempts h h' ∧
    nAttempts h' = (2 ^ Z.of_nat k * nAttempts h) mod 16.
Proof.
  intros Hn Hs HS Hr. exists (Nat.iter k boot_header h).
  destruct (iter_boot_header h k HS Hr) as (Hsame & _ & Hval & _).
  split; [by apply boots_run|]. by split.
Qed.

(** X8: an image whose check has passed, with neither a success nor a
    failure recorded, is accepted by [_can_boot] after [k] boots exactly
    when [k] is below the number of shifts its attempt field survives,
    which is 4 for the field 0b1111 it is flashed with. *)
Theorem accepted_while_attempts_left image s h k :
  image ≠ NULL → s !! image = Some h → in_range h →
  nFailure h = true → nSuccess h = true → nValid h = false →
  attempts_left 15 = 4%nat ∧
  ∃ s',
    run (replicate k (Boot image)) s = Some (tt, s', []) ∧
    _can_boot image s'
      = Some (bool_decide (k < attempts_left (nAttempts h))%nat, s', []).
Proof.
  intros Hn Hs Hr HF HS HV. split; [done|].
  exists (<[image := Nat.iter k boot_header h]> s).
  split; [by apply boots_run|].
  destruct (iter_boot_header h k HS Hr) as (Hsame & Hrk & _ & Hleft).
  set (hk := Nat.iter k boot_header h) in *.
  destruct Hsame as (_&_&_& HVk & _ & HSk & HFk).
  rewrite (can_boot_run _ _ hk) by apply lookup_insert_eq.
  assert (verifies hk = false) as Hidle.
  { unfold verifies. rewrite HVk, HV. by rewrite andb_false_r. }
  rewrite can_boot_header_idle, can_boot_trace_idle by done.
  rewrite insert_insert_eq. do 2 f_equal.
  unfold can_boot_verdict. rewrite HFk, HF, HSk, HS, HVk, HV. simpl.
  pose proof (attempts_left_zero _ (proj2 (proj2 (proj2 Hrk)))) as Hzero.
  destruct (Z.eqb_spec (nAttempts hk) 0) as [Heq|Hne]; simpl.
  - rewrite bool_decide_eq_false_2; [done|]. apply Hzero in Heq. lia.
  - rewrite bool_decide_eq_true_2; [done|].
    destruct (decide (attempts_left (nAttempts hk) = 0%nat)) as [H0|H0];
      [by apply Hzero in H0 | lia].
Qed.

(** ** The example boot loader over power cycles *)

Lemma header_addrs :
  HEADER_ADDR_A ≠ HEADER_ADDR_B ∧ HEADER_ADDR_A ≠ NULL ∧
  HEADER_ADDR_B ≠ NULL ∧ (HEADER_ADDR_A >=? HEADER_ADDR_B) = false.
Proof. done. Qed.

(** One reset: header B is booted if [_can_boot] accepts it, else header A
    if it is accepted, else [main] stays in its loop. *)
Lemma main_run s ha hb :
  s !! HEADER_ADDR_A = Some ha → s !! HEADER_ADDR_B = Some hb →
  let ha' := can_boot_header HEADER_ADDR_A ha in
  let hb' := can_boot_header HEADER_ADDR_B hb in
  let s2 := <[HEADER_ADDR_B := hb']> (<[HEADER_ADDR_A := ha']> s) in
  main s =
    Some (if can_boot_verdict HEADER_ADDR_B hb
          then (Loads 0 (HEADER_ADDR_B - length hb),
                <[HEADER_ADDR_B := boot_header hb']> s2)
          else if can_boot_verdict HEADER_ADDR_A ha
          then (Loads 0 (HEADER_ADDR_A - length ha),
                <[HEADER_ADDR_A := boot_header ha']> s2)
          else (Returns, s2),
          can_boot_trace HEADER_ADDR_A ha ++ can_boot_trace HEADER_ADDR_B hb).
Proof.
  intros Ha Hb ha' hb' s2.
  destruct header_addrs as (Hne & HnA & HnB & Hge).
  assert (<[HEADER_ADDR_A := ha']> s !! HEADER_ADDR_B = Some hb) as Hb1.
  { by rewrite lookup_insert_ne. }
  assert (length hb' = length hb ∧ length ha' = length ha) as [Hlb Hla].
  { split; apply can_boot_header_validity. }
  unfold main. run_with (choose_run _ _ _ _ _ Ha Hb1). fold ha' hb' s2.
  unfold pick. rewrite Hge.
  destruct (can_boot_verdict HEADER_ADDR_B hb),
    (can_boot_verdict HEADER_ADDR_A ha); cbn [negb andb].
  - rewrite (boot_run HEADER_ADDR_B s2 hb' HnB) by apply lookup_insert_eq.
    by rewrite Hlb, app_nil_r.
  - rewrite (boot_run HEADER_ADDR_B s2 hb' HnB) by apply lookup_insert_eq.
    by rewrite Hlb, app_nil_r.
  - rewrite (boot_run HEADER_ADDR_A s2 ha' HnA).
    + by rewrite Hla, app_nil_r.
    + unfold s2. by rewrite lookup_insert_ne, lookup_insert_eq.
  - by rewrite boot_null, app_nil_r.
Qed.

(** X12: what one reset of the example boot loader does follows from the
    two [_can_boot] verdicts alone: it dispatches image B whenever B is
    accepted and image A when only A is ([switcher_boot] reaches its asm
    statement, with 0 for [sp] and the start of that image for [ip]), and
    it stays in its loop, with no attempt used up, when neither is. *)
Theorem main_outcome s ha hb :
  s !! HEADER_ADDR_A = Some ha → s !! HEADER_ADDR_B = Some hb →
  ∃ can_boot_a can_boot_b s1 t1 s2 t2 s3,
    _can_boot HEADER_ADDR_A s = Some (can_boot_a, s1, t1) ∧
    _can_boot HEADER_ADDR_B s1 = Some (can_boot_b, s2, t2) ∧
    main s =
      Some (if can_boot_b then Loads 0 (HEADER_ADDR_B - length hb)
            else if can_boot_a then Loads 0 (HEADER_ADDR_A - length ha)
            else Returns,
            s3, t1 ++ t2) ∧
    (can_boot_a = false → can_boot_b = false → s3 = s2).
Proof.
  intros Ha Hb. destruct header_addrs as (Hne & _).
  assert (<[HEADER_ADDR_A := can_boot_header HEADER_ADDR_A ha]> s
            !! HEADER_ADDR_B = Some hb) as Hb1.
  { by rewrite lookup_insert_ne. }
  set (ha' := can_boot_header HEADER_ADDR_A ha).
  set (hb' := can_boot_header HEADER_ADDR_B hb).
  set (s2 := <[HEADER_ADDR_B := hb']> (<[HEADER_ADDR_A := ha']> s)).
  exists (can_boot_verdict HEADER_ADDR_A ha),
    (can_boot_verdict HEADER_ADDR_B hb),
    (<[HEADER_ADDR_A := ha']> s), (can_boot_trace HEADER_ADDR_A ha),
    s2, (can_boot_trace HEADER_ADDR_B hb),
    (if can_boot_verdict HEADER_ADDR_B hb
     then <[HEADER_ADDR_B := boot_header hb']> s2
     else if can_boot_verdict HEADER_ADDR_A ha
     then <[HEADER_ADDR_A := boot_header ha']> s2
     else s2).
  split; [by apply can_boot_run|]. split; [by apply can_boot_run|].
  rewrite (main_run s ha hb Ha Hb). cbv zeta. fold ha' hb' s2. split.
  - destruct (can_boot_verdict HEADER_ADDR_B hb),
      (can_boot_verdict HEADER_ADDR_A ha); reflexivity.
  - by intros -> ->.
Qed.

(** What one reset leaves of the two headers, when neither image has
    recorded a success: the attempts left to the two images drop by one
    in total if it dispatches an image and stay if it does not. *)
Lemma main_uses_an_attempt s ha hb c s1 t1 :
  s !! HEADER_ADDR_A = Some ha → s !! HEADER_ADDR_B = Some hb →
  nSuccess ha = true → nSuccess hb = true → in_range ha → in_range hb →
  main s = Some (c, s1, t1) →
  ∃ ha1 hb1,
    s1 !! HEADER_ADDR_A = Some ha1 ∧ s1 !! HEADER_ADDR_B = Some hb1 ∧
    nSuccess ha1 = true ∧ nSuccess hb1 = true ∧
    in_range ha1 ∧ in_range hb1 ∧
    (dispatches [c] + (attempts_left (nAttempts ha1)
                  + attempts_left (nAttempts hb1))
     = attempts_left (nAttempts ha) + attempts_left (nAttempts hb))%nat.
Proof.
  intros Ha Hb HSa HSb Hra Hrb Hmain.
  destruct header_addrs as (Hne & _).
  rewrite (main_run s ha hb Ha Hb) in Hmain. cbv zeta in Hmain.
  set (ha' := can_boot_header HEADER_ADDR_A ha) in *.
  set (hb' := can_boot_header HEADER_ADDR_B hb) in *.
  assert (∀ q k, nSuccess k = true → in_range k →
            nSuccess (can_boot_header q k) = true ∧
            in_range (can_boot_header q k) ∧
            nAttempts (can_boot_header q k) = nAttempts k) as Hcan.
  { intros q k Hk Hr.
    destruct (can_boot_header_validity q k) as (_&_&_& HS &_& HA).
    split; [congruence|]. split; [|done].
    unfold can_boot_header. by destruct (verifies k), (checksum_ok q k). }
  assert (∀ q k, nSuccess k = true → in_range k →
            can_boot_verdict q k = true →
            nSuccess (boot_header (can_boot_header q k)) = true ∧
            in_range (boot_header (can_boot_header q k)) ∧
            S (attempts_left (nAttempts (boot_header (can_boot_header q k))))
              = attempts_left (nAttempts k)) as Hboot.
  { intros q k Hk Hr Hv. destruct (Hcan q k Hk Hr) as (HS' & Hr' & HA').
    split; [by rewrite boot_header_nSuccess|].
    split; [by apply boot_header_in_range|].
    rewrite boot_header_attempts_eq, HA' by done.
    destruct Hr as (_ & _ & _ & Hr).
    rewrite attempts_left_shift by done.
    assert (nAttempts k ≠ 0) as Hnz.
    { intros Hz. unfold can_boot_verdict in Hv. rewrite Hk, Hz in Hv.
      by destruct (nFailure k), (nValid k), (nInvalid k),
        (checksum_ok q k). }
    pose proof (attempts_left_zero _ Hr). lia. }
  destruct (Hcan HEADER_ADDR_A ha HSa Hra) as (HSa' & Hra' & HAa').
  destruct (Hcan HEADER_ADDR_B hb HSb Hrb) as (HSb' & Hrb' & HAb').
  fold ha' in HSa', Hra', HAa'. fold hb' in HSb', Hrb', HAb'.
  destruct (can_boot_verdict HEADER_ADDR_B hb) eqn:Hvb;
    [|destruct (can_boot_verdict HEADER_ADDR_A ha) eqn:Hva];
    injection Hmain as <- <- _.
  - destruct (Hboot _ _ HSb Hrb Hvb) as (HS1 & Hr1 & Hleft).
    fold hb' in HS1, Hr1, Hleft.
    exists ha', (boot_header hb').
    rewrite lookup_insert_eq.
    rewrite !lookup_insert_ne, lookup_insert_eq by done.
    split_and!; try done. simpl. rewrite HAa'. lia.
  - destruct (Hboot _ _ HSa Hra Hva) as (HS1 & Hr1 & Hleft).
    fold ha' in HS1, Hr1, Hleft.
    exists (boot_header ha'), hb'.
    rewrite lookup_insert_eq.
    rewrite lookup_insert_ne, lookup_insert_eq by done.
    split_and!; try done. simpl. rewrite HAb'. lia.
  - exists ha', hb'.
    rewrite lookup_insert_eq.
    rewrite lookup_insert_ne, lookup_insert_eq by done.
    split_and!; try done. simpl. rewrite HAa', HAb'. lia.
Qed.

(** X13: while neither image records a success, however many resets
    follow one another, the number that dispatch an image (get as far as
    the asm statement of [switcher_boot]) is at most the number of
    attempts the two headers have left, and so at most 8: a boot loop
    comes to a halt. *)
Theorem boot_loop_bounded n : ∀ s ha hb cs s' t,
  s !! HEADER_ADDR_A = Some ha → s !! HEADER_ADDR_B = Some hb →
  nSuccess ha = true → nSuccess hb = true → in_range ha → in_range hb →
  power_cycles n s = Some (cs, s', t) →
  (dispatches cs <= attempts_left (nAttempts ha) + attempts_left (nAttempts hb)
   ∧ attempts_left (nAttempts ha) + attempts_left (nAttempts hb) <= 8)%nat.
Proof.
  induction n as [|n IH]; intros s ha hb cs s' t Ha Hb HSa HSb Hra Hrb Hrun.
  - injection Hrun as <- _ _. simpl.
    pose proof (attempts_left_le (nAttempts ha)).
    pose proof (attempts_left_le (nAttempts hb)). lia.
  - cbn [power_cycles] in Hrun.
    apply bind_inv in Hrun as (c & s1 & t1 & t2 & Hmain & Hrest & _).
    apply bind_inv in Hrest as (cs' & s2 & t3 & t4 & Hcycles & [= <- _ _] & _).
    destruct (main_uses_an_attempt _ _ _ _ _ _ Ha Hb HSa HSb Hra Hrb Hmain)
      as (ha1 & hb1 & Ha1 & Hb1 & HSa1 & HSb1 & Hra1 & Hrb1 & Hleft).
    destruct (IH _ _ _ _ _ _ Ha1 Hb1 HSa1 HSb1 Hra1 Hrb1 Hcycles)
      as [Hcount _].
    pose proof (attempts_left_le (nAttempts ha)).
    pose proof (attempts_left_le (nAttempts hb)).
    split; [|lia]. destruct c; simpl in *; lia.
Qed.

(** X14: once image B has recorded a success and no failure, every reset
    dispatches image B ([switcher_boot] reaches its asm statement with 0
    for [sp] and the start of image B for [ip]), whatever header A holds,
    and header B is never written. *)
Theorem succeeded_image_boots_every_cycle n : ∀ s ha hb,
  s !! HEADER_ADDR_A = Some ha → s !! HEADER_ADDR_B = Some hb →
  nSuccess hb = false → nFailure hb = true →
  ∃ s' t,
    power_cycles n s
      = Some (replicate n (Loads 0 (HEADER_ADDR_B - length hb)), s', t) ∧
    s' !! HEADER_ADDR_B = Some hb.
Proof.
  destruct header_addrs as (Hne & _).
  induction n as [|n IH]; intros s ha hb Ha Hb HS HF.
  - by exists s, [].
  - assert (verifies hb = false) as Hidle.
    { unfold verifies. by rewrite HS, HF. }
    assert (can_boot_verdict HEADER_ADDR_B hb = true) as Hyes.
    { unfold can_boot_verdict. by rewrite HS, HF. }
    pose proof (main_run s ha hb Ha Hb) as Hmain. cbv zeta in Hmain.
    rewrite Hyes, can_boot_header_idle in Hmain by done.
    assert (boot_header hb = hb) as Hkeep.
    { unfold boot_header. by rewrite HS. }
    rewrite Hkeep in Hmain.
    set (s1 := <[HEADER_ADDR_B := hb]>
                 (<[HEADER_ADDR_B := hb]>
                    (<[HEADER_ADDR_A := can_boot_header HEADER_ADDR_A ha]> s)))
      in *.
    assert (s1 !! HEADER_ADDR_A = Some (can_boot_header HEADER_ADDR_A ha))
      as Ha1.
    { unfold s1. rewrite !lookup_insert_ne by done. apply lookup_insert_eq. }
    assert (s1 !! HEADER_ADDR_B = Some hb) as Hb1.
    { apply lookup_insert_eq. }
    destruct (IH s1 _ hb Ha1 Hb1 HS HF) as (s' & t & Hrest & Hend).
    exists s'. eexists. split; [|exact Hend].
    cbn [power_cycles replicate].
    run_with Hmain. run_with Hrest. reflexivity.
Qed.

End Switcher.

(** ** The code on concrete flash contents *)

(** C1, on the code: two freshly flashed headers whose CRC remainder is
    zero are both refused by [_can_boot] without the CRC being run, so
    [switcher_choose] returns [NULL] and [main] falls into its halt loop;
    the headers are left exactly as they were. *)
Theorem fresh_images_not_chosen :
  fresh header_a ∧ fresh header_b ∧
  crc_accepts (HEADER_ADDR_A - length header_a) (length header_a + 3) = 0 ∧
  _can_boot crc_accepts HEADER_ADDR_A flash_fresh
    = Some (false, flash_fresh, []) ∧
  switcher_choose crc_accepts HEADER_ADDR_A HEADER_ADDR_B flash_fresh
    = Some (NULL, flash_fresh, []) ∧
  main crc_accepts flash_fresh = Some (Returns, flash_fresh, []).
Proof.
  assert (_can_boot crc_accepts HEADER_ADDR_A flash_fresh
            = Some (false, flash_fresh, [])) as Ha.
  { by apply (fresh_refused _ _ _ header_a). }
  assert (_can_boot crc_accepts HEADER_ADDR_B flash_fresh
            = Some (false, flash_fresh, [])) as Hb.
  { by apply (fresh_refused _ _ _ header_b). }
  assert (switcher_choose crc_accepts HEADER_ADDR_A HEADER_ADDR_B flash_fresh
            = Some (NULL, flash_fresh, [])) as Hc.
  { unfold switcher_choose.
    by rewrite (bind_Some _ _ _ _ _ _ Ha), (bind_Some _ _ _ _ _ _ Hb). }
  split_and!; [done | done | done | exact Ha | exact Hc |].
  unfold main. by rewrite (bind_Some _ _ _ _ _ _ Hc).
Qed.

(** C3, on the code: a header with [nValid] set and [nInvalid] already
    clear has its CRC run by every [switcher_choose]; the call leaves the
    store as it found it, so the second of two calls in a row returns the
    same result and runs the CRC for that header once more. *)
Theorem rejected_image_verified_again :
  switcher_choose crc_rejects HEADER_ADDR_A HEADER_ADDR_B flash_rejected
    = Some (NULL, flash_rejected,
            [EvCrc24 HEADER_ADDR_A (HEADER_ADDR_A - 4096) 4099]) ∧
  (switcher_choose crc_rejects HEADER_ADDR_A HEADER_ADDR_B;;
   switcher_choose crc_rejects HEADER_ADDR_A HEADER_ADDR_B) flash_rejected
    = Some (NULL, flash_rejected,
            [EvCrc24 HEADER_ADDR_A (HEADER_ADDR_A - 4096) 4099;
             EvCrc24 HEADER_ADDR_A (HEADER_ADDR_A - 4096) 4099]).
Proof.
  assert (switcher_choose crc_rejects HEADER_ADDR_A HEADER_ADDR_B
            flash_rejected
          = Some (NULL, flash_rejected,
                  [EvCrc24 HEADER_ADDR_A (HEADER_ADDR_A - 4096) 4099])) as Hc.
  { assert (_can_boot crc_rejects HEADER_ADDR_A flash_rejected
              = Some (false, flash_rejected,
                      [EvCrc24 HEADER_ADDR_A (HEADER_ADDR_A - 4096) 4099]))
      as Ha.
    { by apply (rejected_checked_each_time _ _ _
                  (set_nInvalid false header_a)). }
    assert (_can_boot crc_rejects HEADER_ADDR_B flash_rejected
              = Some (false, flash_rejected, [])) as Hb.
    { by apply (fresh_refused _ _ _ header_b). }
    unfold switcher_choose.
    by rewrite (bind_Some _ _ _ _ _ _ Ha), (bind_Some _ _ _ _ _ _ Hb). }
  split; [exact Hc|]. by rewrite (bind_Some _ _ _ _ _ _ Hc), Hc.
Qed.

(** C9, on the code: for image A of [flash_succeeded], whose length 4096
    is below its header address, the checksum check does what is said of
    it: [crc_24] is run once over the 4099 bytes that start at the header
    address minus 4096, and the image is valid exactly on a zero
    remainder.  [switcher_boot], however, ends in [Loads]: its asm
    statement moves that start address into [ip], which is r12, and moves
    nothing into the program counter, so the start of the image is not an
    address that control is transferred to. *)
Theorem boot_loads_ip_not_pc :
  flash_succeeded !! HEADER_ADDR_A = Some (set_nSuccess false header_a) ∧
  0 <= length (set_nSuccess false header_a) <= HEADER_ADDR_A ∧
  _image_start HEADER_ADDR_A flash_succeeded
    = Some (HEADER_ADDR_A - 4096, flash_succeeded, []) ∧
  _checksum_valid crc_accepts HEADER_ADDR_A flash_succeeded
    = Some (true, flash_succeeded,
            [EvCrc24 HEADER_ADDR_A (HEADER_ADDR_A - 4096) 4099]) ∧
  _checksum_valid crc_rejects HEADER_ADDR_A flash_succeeded
    = Some (false, flash_succeeded,
            [EvCrc24 HEADER_ADDR_A (HEADER_ADDR_A - 4096) 4099]) ∧
  switcher_boot HEADER_ADDR_A flash_succeeded
    = Some (Loads 0 (HEADER_ADDR_A - 4096), flash_succeeded, []) ∧
  main crc_accepts flash_succeeded
    = Some (Loads 0 (HEADER_ADDR_A - 4096), flash_succeeded, []).
Proof.
  assert (flash_succeeded !! HEADER_ADDR_A
            = Some (set_nSuccess false header_a)) as Hs by reflexivity.
  assert (HEADER_ADDR_A ≠ NULL) as Hn by discriminate.
  assert (switcher_boot HEADER_ADDR_A flash_succeeded
            = Some (Loads 0 (HEADER_ADDR_A - 4096), flash_succeeded, []))
    as Hboot.
  { rewrite (boot_run _ _ _ Hn Hs). by rewrite insert_id. }
  split_and!.
  - exact Hs.
  - done.
  - done.
  - exact (image_start_run _ _ _ Hs).
  - exact (checksum_valid_run crc_accepts _ _ _ Hs).
  - exact (checksum_valid_run crc_rejects _ _ _ Hs).
  - exact Hboot.
  - assert (switcher_choose crc_accepts HEADER_ADDR_A HEADER_ADDR_B
              flash_succeeded = Some (HEADER_ADDR_A, flash_succeeded, []))
      as Hc.
    { vm_compute. reflexivity. }
    unfold main. by rewrite (bind_Some _ _ _ _ _ _ Hc), Hboot.
Qed.

(** C2, against part (a) as worded: with [nValid] clear and [nInvalid] set
    the header at [HEADER_ADDR_A] is accepted, not refused. *)
Lemma validated_header_accepted :
  ¬ refused_when_validated crc_accepts HEADER_ADDR_A flash_validated.
Proof.
  intros Hrule.
  destruct (Hrule (set_nValid false header_a)) as [s' Hrun];
    [reflexivity..|].
  rewrite (can_boot_run _ _ _ (set_nValid false header_a)) in Hrun;
    [|reflexivity].
  discriminate Hrun.
Qed.

(** ** The theorems at concrete flash contents *)

(** [can_boot_pending] on image A with [nInvalid] clear and a zero
    remainder: the CRC is run once, [nValid] is cleared, the image accepted. *)
Lemma can_boot_pending_witness :
  flash_rejected !! HEADER_ADDR_A = Some (set_nInvalid false header_a) ∧
  nFailure (set_nInvalid false header_a) = true ∧
  nSuccess (set_nInvalid false header_a) = true ∧
  ∃ r s' t,
    _can_boot crc_accepts HEADER_ADDR_A flash_rejected = Some (r, s', t) ∧
    t = [EvCrc24 HEADER_ADDR_A (HEADER_ADDR_A - 4096) 4099] ∧
    r = true ∧
    s' !! HEADER_ADDR_A = Some (set_nValid false (set_nInvalid false header_a)).
Proof.
  split_and!; [reflexivity..|].
  destruct (can_boot_pending crc_accepts HEADER_ADDR_A flash_rejected
              (set_nInvalid false header_a) eq_refl eq_refl eq_refl)
    as (r & s' & t & Hrun & _ & Hpending).
  exists r, s', t. split; [exact Hrun|].
  destruct (Hpending eq_refl) as ([Ht|Ht] & _ & Hok).
  - rewrite Ht in Hrun. vm_compute in Hrun. discriminate Hrun.
  - split; [exact Ht|].
    destruct Hok as [-> ->]; [by rewrite Ht | reflexivity |].
    split; reflexivity.
Defined.

(** [choose_by_address] on two stores that differ in versions only: both
    images bootable, B returned in both, although A is the newer one in
    the first. *)
Lemma choose_by_address_witness :
  same_but_version (Image 0xABCDEF 9 4096 true true false true 15)
                   (Image 0xABCDEF 1 4096 true true false true 15) ∧
  same_but_version (Image 0x123456 3 8192 true true false true 15)
                   (Image 0x123456 7 8192 true true false true 15) ∧
  ∃ s1' s2' t,
    switcher_choose crc_accepts HEADER_ADDR_A HEADER_ADDR_B (flash_both 9 3)
      = Some (HEADER_ADDR_B, s1', t) ∧
    switcher_choose crc_accepts HEADER_ADDR_A HEADER_ADDR_B (flash_both 1 7)
      = Some (HEADER_ADDR_B, s2', t).
Proof.
  assert (same_but_version (Image 0xABCDEF 9 4096 true true false true 15)
            (Image 0xABCDEF 1 4096 true true false true 15)) as Ha.
  { repeat split. }
  assert (same_but_version (Image 0x123456 3 8192 true true false true 15)
            (Image 0x123456 7 8192 true true false true 15)) as Hb.
  { repeat split. }
  split; [exact Ha|]. split; [exact Hb|].
  destruct (choose_by_address crc_accepts HEADER_ADDR_A HEADER_ADDR_B
              (flash_both 9 3) (flash_both 1 7) _ _ _ _
              eq_refl eq_refl eq_refl eq_refl Ha Hb)
    as (r & s1' & s2' & t & H1 & H2 & Hboth).
  assert (r = HEADER_ADDR_B) as ->.
  { eapply Hboth; reflexivity. }
  by exists s1', s2', t.
Defined.

(** [four_boots_exhaust] on the fresh image A. *)
Lemma four_boots_exhaust_witness :
  HEADER_ADDR_A ≠ NULL ∧
  flash_fresh !! HEADER_ADDR_A = Some header_a ∧
  nSuccess header_a = true ∧
  ∃ s4 h4,
    run crc_accepts (replicate 4 (Boot HEADER_ADDR_A)) flash_fresh
      = Some (tt, s4, []) ∧
    s4 !! HEADER_ADDR_A = Some h4 ∧ nAttempts h4 = 0 ∧
    nValid h4 = true ∧ nInvalid h4 = true.
Proof.
  assert (HEADER_ADDR_A ≠ NULL) as Hn by discriminate.
  split_and!; [exact Hn | reflexivity | reflexivity |].
  destruct (four_boots_exhaust crc_accepts HEADER_ADDR_A flash_fresh header_a
              Hn eq_refl eq_refl)
    as (_ & s4 & h4 & Hrun & Hs4 & HA & HV & HI & _).
  by exists s4, h4.
Defined.

(** [succeeded_image_trusted] on image A after a recorded success, with a
    CRC that rejects everything. *)
Lemma succeeded_image_trusted_witness :
  flash_succeeded !! HEADER_ADDR_A = Some (set_nSuccess false header_a) ∧
  nSuccess (set_nSuccess false header_a) = false ∧
  nFailure (set_nSuccess false header_a) = true ∧
  _can_boot crc_rejects HEADER_ADDR_A flash_succeeded
    = Some (true, flash_succeeded, []) ∧
  switcher_boot HEADER_ADDR_A flash_succeeded
    = Some (Loads 0 (HEADER_ADDR_A - 4096), flash_succeeded, []).
Proof.
  split_and!; [reflexivity..| |];
    destruct (succeeded_image_trusted crc_rejects HEADER_ADDR_A
                flash_succeeded (set_nSuccess false header_a)
                eq_refl eq_refl eq_refl) as (Hcan & _ & Hboot).
  - exact Hcan.
  - apply Hboot. discriminate.
Defined.

(** Every header of [flash_fresh] is fresh. *)
Lemma fresh_flash_fresh p h : flash_fresh !! p = Some h → fresh h.
Proof.
  unfold flash_fresh.
  intros [[_ <-]|[_ [_ <-]%lookup_singleton_Some]]%lookup_insert_Some;
    by repeat split.
Qed.

(** [writes_only_restrict] for a boot of the fresh image A. *)
Lemma writes_only_restrict_witness :
  reachable crc_accepts flash_fresh ∧
  exec crc_accepts (Boot HEADER_ADDR_A) flash_fresh
    = Some (tt, <[HEADER_ADDR_A := boot_header header_a]> flash_fresh, []) ∧
  restricts header_a (boot_header header_a).
Proof.
  assert (reachable crc_accepts flash_fresh) as Hreach.
  { apply reachable_flashed. exact fresh_flash_fresh. }
  assert (exec crc_accepts (Boot HEADER_ADDR_A) flash_fresh
            = Some (tt, <[HEADER_ADDR_A := boot_header header_a]> flash_fresh,
                    [])) as Hexec.
  { reflexivity. }
  split_and!; [exact Hreach | exact Hexec |].
  exact (writes_only_restrict crc_accepts _ _ _ _ Hreach Hexec HEADER_ADDR_A).
Defined.

(** [null_when_nothing_boots] on the two fresh images. *)
Lemma null_when_nothing_boots_witness :
  _can_boot crc_accepts HEADER_ADDR_A flash_fresh
    = Some (false, flash_fresh, []) ∧
  _can_boot crc_accepts HEADER_ADDR_B flash_fresh
    = Some (false, flash_fresh, []) ∧
  switcher_choose crc_accepts HEADER_ADDR_A HEADER_ADDR_B flash_fresh
    = Some (NULL, flash_fresh, []) ∧
  switcher_boot NULL flash_fresh = Some (Returns, flash_fresh, []).
Proof.
  assert (_can_boot crc_accepts HEADER_ADDR_A flash_fresh
            = Some (false, flash_fresh, [])) as Ha.
  { vm_compute. reflexivity. }
  assert (_can_boot crc_accepts HEADER_ADDR_B flash_fresh
            = Some (false, flash_fresh, [])) as Hb.
  { vm_compute. reflexivity. }
  split_and!; [exact Ha | exact Hb | |];
    destruct (null_when_nothing_boots crc_accepts _ _ _ _ _ _ _ Ha Hb)
      as (Hchoose & Hboot & _).
  - exact Hchoose.
  - exact Hboot.
Defined.

(** [choose_and_boot_frame] at image A while [switcher_choose] validates
    it. *)
Lemma choose_and_boot_frame_witness :
  flash_rejected !! HEADER_ADDR_A = Some (set_nInvalid false header_a) ∧
  ∃ r s' t h',
    switcher_choose crc_accepts HEADER_ADDR_A HEADER_ADDR_B flash_rejected
      = Some (r, s', t) ∧
    s' !! HEADER_ADDR_A = Some h' ∧
    same_but_validity (set_nInvalid false header_a) h' ∧
    nValid h' = false.
Proof.
  split; [reflexivity|].
  destruct (choose_and_boot_frame crc_accepts HEADER_ADDR_A HEADER_ADDR_B
              HEADER_ADDR_A flash_rejected HEADER_ADDR_A
              (set_nInvalid false header_a) eq_refl) as [Hchoose _].
  destruct (switcher_choose crc_accepts HEADER_ADDR_A HEADER_ADDR_B
              flash_rejected) as [[[r s'] t]|] eqn:Hrun;
    [|vm_compute in Hrun; discriminate Hrun].
  destruct (Hchoose r s' t eq_refl) as (h' & Hs' & Hsame & _).
  exists r, s', t, h'. split_and!; [reflexivity | exact Hs' | exact Hsame |].
  vm_compute in Hrun. injection Hrun as _ <- _.
  vm_compute in Hs'. by injection Hs' as <-.
Defined.

(** ** The further properties at concrete flash contents *)

Lemma in_range_header_a : in_range header_a.
Proof. unfold in_range. simpl. lia. Qed.

(** [failure_is_permanent]: image A records a success, then a failure, then
    a success again, and is still refused. *)
Lemma failure_is_permanent_witness :
  HEADER_ADDR_A ≠ NULL ∧
  ∃ s1 t1 s2 t2,
    switcher_set_failure HEADER_ADDR_A flash_succeeded = Some (tt, s1, t1) ∧
    run crc_accepts
        [SetSuccess HEADER_ADDR_A; Choose HEADER_ADDR_A HEADER_ADDR_B;
         Boot HEADER_ADDR_A] s1 = Some (tt, s2, t2) ∧
    _can_boot crc_accepts HEADER_ADDR_A s2 = Some (false, s2, []).
Proof.
  assert (HEADER_ADDR_A ≠ NULL) as Hn by discriminate.
  split; [exact Hn|].
  destruct (switcher_set_failure HEADER_ADDR_A flash_succeeded)
    as [[[[] s1] t1]|] eqn:Hset; [|vm_compute in Hset; discriminate Hset].
  destruct (run crc_accepts
              [SetSuccess HEADER_ADDR_A; Choose HEADER_ADDR_A HEADER_ADDR_B;
               Boot HEADER_ADDR_A] s1) as [[[[] s2] t2]|] eqn:Hrun.
  - exists s1, t1, s2, t2. split; [reflexivity|]. split; [exact Hrun|].
    exact (proj1 (failure_is_permanent crc_accepts _ _ _ _ _ _ _
                    Hn Hset Hrun)).
  - vm_compute in Hset. injection Hset as <- _.
    vm_compute in Hrun. discriminate Hrun.
Defined.

(** [success_persists]: the fresh image A records a success and is still
    accepted, with its header untouched, after two boots and a selection
    under a CRC that rejects everything. *)
Lemma success_persists_witness :
  flash_fresh !! HEADER_ADDR_A = Some header_a ∧
  nFailure header_a = true ∧
  Forall (λ o, o ≠ SetFailure HEADER_ADDR_A)
    [Boot HEADER_ADDR_A; Choose HEADER_ADDR_A HEADER_ADDR_B;
     Boot HEADER_ADDR_A] ∧
  ∃ s1 t1 s2 t2,
    switcher_set_success HEADER_ADDR_A flash_fresh = Some (tt, s1, t1) ∧
    run crc_rejects
        [Boot HEADER_ADDR_A; Choose HEADER_ADDR_A HEADER_ADDR_B;
         Boot HEADER_ADDR_A] s1 = Some (tt, s2, t2) ∧
    s2 !! HEADER_ADDR_A = Some (set_nSuccess false header_a) ∧
    _can_boot crc_rejects HEADER_ADDR_A s2 = Some (true, s2, []).
Proof.
  assert (Forall (λ o, o ≠ SetFailure HEADER_ADDR_A)
            [Boot HEADER_ADDR_A; Choose HEADER_ADDR_A HEADER_ADDR_B;
             Boot HEADER_ADDR_A]) as Hos.
  { repeat constructor; discriminate. }
  split; [reflexivity|]. split; [reflexivity|]. split; [exact Hos|].
  destruct (switcher_set_success HEADER_ADDR_A flash_fresh)
    as [[[[] s1] t1]|] eqn:Hset; [|vm_compute in Hset; discriminate Hset].
  destruct (run crc_rejects
              [Boot HEADER_ADDR_A; Choose HEADER_ADDR_A HEADER_ADDR_B;
               Boot HEADER_ADDR_A] s1) as [[[[] s2] t2]|] eqn:Hrun.
  - exists s1, t1, s2, t2. split; [reflexivity|]. split; [exact Hrun|].
    destruct (success_persists crc_rejects HEADER_ADDR_A flash_fresh header_a
                s1 t1 _ s2 t2 eq_refl eq_refl Hset Hos Hrun)
      as (Hkept & Hcan & _).
    split; [exact Hkept | exact Hcan].
  - vm_compute in Hset. injection Hset as <- _.
    vm_compute in Hrun. discriminate Hrun.
Defined.

(** [choose_order_irrelevant]: both images bootable, B returned for either
    order of the arguments. *)
Lemma choose_order_irrelevant_witness :
  ∃ s' t t',
    switcher_choose crc_accepts HEADER_ADDR_A HEADER_ADDR_B (flash_both 1 2)
      = Some (HEADER_ADDR_B, s', t) ∧
    switcher_choose crc_accepts HEADER_ADDR_B HEADER_ADDR_A (flash_both 1 2)
      = Some (HEADER_ADDR_B, s', t').
Proof.
  destruct (switcher_choose crc_accepts HEADER_ADDR_A HEADER_ADDR_B
              (flash_both 1 2)) as [[[r s'] t]|] eqn:Hrun;
    [|vm_compute in Hrun; discriminate Hrun].
  destruct (choose_order_irrelevant crc_accepts _ _ _ _ _ _ Hrun)
    as (t' & Hswap & _).
  assert (r = HEADER_ADDR_B) as ->.
  { vm_compute in Hrun. by injection Hrun as <- _ _. }
  by exists s', t, t'.
Defined.

(** [choose_twice]: the first call checks image A and clears its [nValid];
    the second returns A again and runs no CRC. *)
Lemma choose_twice_witness :
  ∃ s' t,
    switcher_choose crc_accepts HEADER_ADDR_A HEADER_ADDR_B flash_rejected
      = Some (HEADER_ADDR_A, s', t) ∧
    switcher_choose crc_accepts HEADER_ADDR_A HEADER_ADDR_B s'
      = Some (HEADER_ADDR_A, s', []).
Proof.
  destruct (switcher_choose crc_accepts HEADER_ADDR_A HEADER_ADDR_B
              flash_rejected) as [[[r s'] t]|] eqn:Hrun;
    [|vm_compute in Hrun; discriminate Hrun].
  destruct (choose_twice crc_accepts _ _ _ _ _ _ Hrun) as (t' & Hagain & _).
  assert (r = HEADER_ADDR_A) as ->.
  { vm_compute in Hrun. by injection Hrun as <- _ _. }
  exists s', t. split; [reflexivity|].
  assert (t' = []) as <-; [|exact Hagain].
  vm_compute in Hrun. injection Hrun as <- _.
  vm_compute in Hagain. by injection Hagain as <-.
Defined.

(** [chosen_stays_bootable]: image A, checked and returned by the call, is
    accepted again without a CRC call. *)
Lemma chosen_stays_bootable_witness :
  HEADER_ADDR_A ≠ NULL ∧
  ∃ s' t,
    switcher_choose crc_accepts HEADER_ADDR_A HEADER_ADDR_B flash_rejected
      = Some (HEADER_ADDR_A, s', t) ∧
    _can_boot crc_accepts HEADER_ADDR_A s' = Some (true, s', []).
Proof.
  assert (HEADER_ADDR_A ≠ NULL) as Hn by discriminate.
  split; [exact Hn|].
  destruct (switcher_choose crc_accepts HEADER_ADDR_A HEADER_ADDR_B
              flash_rejected) as [[[r s'] t]|] eqn:Hrun;
    [|vm_compute in Hrun; discriminate Hrun].
  assert (r = HEADER_ADDR_A) as ->.
  { vm_compute in Hrun. by injection Hrun as <- _ _. }
  exists s', t. split; [reflexivity|].
  exact (proj2 (chosen_stays_bootable crc_accepts _ _ _ _ _ _ Hn Hrun)).
Defined.

(** [boots_shift_attempts]: two boots of the fresh image A take its
    attempts from 0b1111 to 0b1100. *)
Lemma boots_shift_attempts_witness :
  HEADER_ADDR_A ≠ NULL ∧ flash_fresh !! HEADER_ADDR_A = Some header_a ∧
  nSuccess header_a = true ∧ in_range header_a ∧
  ∃ h',
    run crc_accepts (replicate 2 (Boot HEADER_ADDR_A)) flash_fresh
      = Some (tt, <[HEADER_ADDR_A := h']> flash_fresh, []) ∧
    nAttempts h' = 12.
Proof.
  assert (HEADER_ADDR_A ≠ NULL) as Hn by discriminate.
  split; [exact Hn|]. split; [reflexivity|]. split; [reflexivity|].
  split; [exact in_range_header_a|].
  destruct (boots_shift_attempts crc_accepts HEADER_ADDR_A flash_fresh
              header_a 2 Hn eq_refl eq_refl in_range_header_a)
    as (h' & Hrun & _ & Hval).
  exists h'. split; [exact Hrun | exact Hval].
Defined.

(** [accepted_while_attempts_left]: the checked image A is refused after
    its fourth boot. *)
Lemma accepted_while_attempts_left_witness :
  HEADER_ADDR_A ≠ NULL ∧
  flash_validated !! HEADER_ADDR_A = Some (set_nValid false header_a) ∧
  in_range (set_nValid false header_a) ∧
  ∃ s',
    run crc_accepts (replicate 4 (Boot HEADER_ADDR_A)) flash_validated
      = Some (tt, s', []) ∧
    _can_boot crc_accepts HEADER_ADDR_A s' = Some (false, s', []).
Proof.
  assert (HEADER_ADDR_A ≠ NULL) as Hn by discriminate.
  split; [exact Hn|]. split; [reflexivity|].
  split; [exact in_range_header_a|].
  destruct (accepted_while_attempts_left crc_accepts HEADER_ADDR_A
              flash_validated (set_nValid false header_a) 4 Hn eq_refl
              in_range_header_a eq_refl eq_refl eq_refl)
    as (_ & s' & Hrun & Hcan).
  exists s'. split; [exact Hrun | exact Hcan].
Defined.

(** [validated_never_checked_again]: image A with [nValid] clear goes
    through selections and a boot without a CRC call. *)
Lemma validated_never_checked_again_witness :
  flash_validated !! HEADER_ADDR_A = Some (set_nValid false header_a) ∧
  nValid (set_nValid false header_a) = false ∧
  ∃ s' t,
    run crc_rejects
        [Choose HEADER_ADDR_A HEADER_ADDR_B; Boot HEADER_ADDR_A;
         Choose HEADER_ADDR_B HEADER_ADDR_A] flash_validated
      = Some (tt, s', t) ∧
    ∀ data data_len, EvCrc24 HEADER_ADDR_A data data_len ∉ t.
Proof.
  split; [reflexivity|]. split; [reflexivity|].
  destruct (run crc_rejects
              [Choose HEADER_ADDR_A HEADER_ADDR_B; Boot HEADER_ADDR_A;
               Choose HEADER_ADDR_B HEADER_ADDR_A] flash_validated)
    as [[[[] s'] t]|] eqn:Hrun; [|vm_compute in Hrun; discriminate Hrun].
  exists s', t. split; [reflexivity|].
  exact (proj2 (validated_never_checked_again crc_rejects HEADER_ADDR_A
                  flash_validated _ _ s' t eq_refl eq_refl Hrun)).
Defined.

(** [nInvalid_never_changes]: the fresh image A keeps [nInvalid] set
    through a selection, a boot and a success mark. *)
Lemma nInvalid_never_changes_witness :
  flash_fresh !! HEADER_ADDR_A = Some header_a ∧
  ∃ s' t h',
    run crc_rejects
        [Choose HEADER_ADDR_A HEADER_ADDR_B; Boot HEADER_ADDR_A;
         SetSuccess HEADER_ADDR_A] flash_fresh = Some (tt, s', t) ∧
    s' !! HEADER_ADDR_A = Some h' ∧ nInvalid h' = true.
Proof.
  split; [reflexivity|].
  destruct (run crc_rejects
              [Choose HEADER_ADDR_A HEADER_ADDR_B; Boot HEADER_ADDR_A;
               SetSuccess HEADER_ADDR_A] flash_fresh)
    as [[[[] s'] t]|] eqn:Hrun; [|vm_compute in Hrun; discriminate Hrun].
  destruct (nInvalid_never_changes crc_rejects HEADER_ADDR_A flash_fresh
              header_a _ s' t eq_refl Hrun) as [(h' & Hs' & HI) _].
  by exists s', t, h'.
Defined.

(** [choose_crc_calls]: the one CRC call of a selection over
    [flash_rejected] is the one for image A. *)
Lemma choose_crc_calls_witness :
  ∃ r s' t,
    switcher_choose crc_rejects HEADER_ADDR_A HEADER_ADDR_B flash_rejected
      = Some (r, s', t) ∧
    (List.length t <= 2)%nat.
Proof.
  destruct (switcher_choose crc_rejects HEADER_ADDR_A HEADER_ADDR_B
              flash_rejected) as [[[r s'] t]|] eqn:Hrun;
    [|vm_compute in Hrun; discriminate Hrun].
  exists r, s', t. split; [reflexivity|].
  exact (proj1 (choose_crc_calls crc_rejects _ _ _ _ _ _ Hrun)).
Defined.

(** [main_outcome]: with a success recorded for image A and image B fresh,
    a reset dispatches image A. *)
Lemma main_outcome_witness :
  flash_succeeded !! HEADER_ADDR_A = Some (set_nSuccess false header_a) ∧
  flash_succeeded !! HEADER_ADDR_B = Some header_b ∧
  ∃ s3 t,
    main crc_accepts flash_succeeded
      = Some (Loads 0 (HEADER_ADDR_A - 4096), s3, t).
Proof.
  split; [reflexivity|]. split; [reflexivity|].
  destruct (main_outcome crc_accepts flash_succeeded
              (set_nSuccess false header_a) header_b eq_refl eq_refl)
    as (ca & cb & s1 & t1 & s2 & t2 & s3 & Ha & Hb & Hmain & _).
  vm_compute in Ha. injection Ha as <- <- <-.
  vm_compute in Hb. injection Hb as <- _ <-.
  exists s3, []. exact Hmain.
Defined.

(** [boot_loop_bounded]: six resets over a checked image A and a fresh
    image B. *)
Lemma boot_loop_bounded_witness :
  flash_validated !! HEADER_ADDR_A = Some (set_nValid false header_a) ∧
  flash_validated !! HEADER_ADDR_B = Some header_b ∧
  ∃ cs s' t,
    power_cycles crc_accepts 6 flash_validated = Some (cs, s', t) ∧
    (dispatches cs <= 8)%nat.
Proof.
  split; [reflexivity|]. split; [reflexivity|].
  destruct (power_cycles crc_accepts 6 flash_validated)
    as [[[cs s'] t]|] eqn:Hrun; [|vm_compute in Hrun; discriminate Hrun].
  exists cs, s', t. split; [reflexivity|].
  destruct (boot_loop_bounded crc_accepts 6 flash_validated
              (set_nValid false header_a) header_b cs s' t
              eq_refl eq_refl eq_refl eq_refl
              in_range_header_a in_range_header_a Hrun) as [Hle Hmax].
  exact (Nat.le_trans _ _ _ Hle Hmax).
Defined.

(** [succeeded_image_boots_every_cycle]: three resets with a success
    recorded for image B. *)
Lemma succeeded_image_boots_every_cycle_witness :
  flash_both 1 2 !! HEADER_ADDR_B
    = Some (Image 0x123456 2 8192 true true false true 15) ∧
  ∃ s' t,
    power_cycles crc_rejects 3 (flash_both 1 2)
      = Some (replicate 3 (Loads 0 (HEADER_ADDR_B - 8192)), s', t).
Proof.
  split; [reflexivity|].
  destruct (succeeded_image_boots_every_cycle crc_rejects 3 (flash_both 1 2)
              _ _ eq_refl eq_refl eq_refl eq_refl) as (s' & t & Hrun & _).
  by exists s', t.
Defined.
